(** * oneccl_bindings_for_pytorch: the Python binding and the collective
      runtime it forwards to

    Part I embeds [oneccl_bindings_for_pytorch/__init__.py]: the environment
    defaults, the installation check, the XPU library load, the names the
    package exports ([__all__]) and [is_available].  Part II models the
    collective engine (all-gather, broadcast, reduce, all-reduce), which
    the binding only forwards to.  Part III embeds the test script
    [tests/DeepSpeed_test/testccl_cpu.py]; what torch answers the script is
    a parameter of it. *)

From Stdlib Require Import Ascii String ZArith Lia.
From stdpp Require Import gmap strings list fin_maps functions sorting pretty.

Set Warnings "-register-all".

Local Open Scope string_scope.

(** ** Part I: the binding module *)

(** *** The names the package exports *)

Module Exports.

(** Lines 35 to 38 of [__init__.py]: [__all__] gets the names of [_C] that
    do not start with an underscore and do not end in [Base]. *)

Inductive error :=
  | IndexError.

(** [name[0]]: indexing the empty string raises [IndexError]. *)
Definition first_char (name : string) : error + ascii :=
  match name with
  | EmptyString => inl IndexError
  | String c _ => inr c
  end.

(** [s.endswith(suffix)]. *)
Fixpoint endswith (s suffix : string) : bool :=
  String.eqb s suffix
  || match s with
     | EmptyString => false
     | String _ rest => endswith rest suffix
     end.

(** The condition of the comprehension,
    [name[0] != '_' and not name.endswith('Base')]. *)
Definition exported (name : string) : error + bool :=
  match first_char name with
  | inl e => inl e
  | inr c => inr (bool_decide (c ≠ "_"%char) && negb (endswith name "Base"))
  end.

(** [[name for name in names if ...]], [names] being [dir(ccl_lib)]. *)
Fixpoint comprehension (names : list string) : error + list string :=
  match names with
  | [] => inr []
  | name :: rest =>
      match exported name with
      | inl e => inl e
      | inr keep =>
          match comprehension rest with
          | inl e => inl e
          | inr kept => inr (if keep then name :: kept else kept)
          end
      end
  end.

(** [__all__ = []; __all__ += [...]]. *)
Definition all_names (dir_ccl_lib : list string) : error + list string :=
  match comprehension dir_ccl_lib with
  | inl e => inl e
  | inr kept => inr ([] ++ kept)%list
  end.

End Exports.

Module Binding.

(** *** Tensors and [is_available] *)

(** What [is_available] observes of a tensor: [tensor.is_contiguous()] and
    [tensor.get_device()] (a device index, [-1] for a CPU tensor). *)
Record tensor := Tensor {
  is_contiguous : bool;
  get_device : Z;
}.

(** One pass through the body of [for tensor in tensors]: either the function
    returns ([inl]), or the loop goes on with the updated [devices] set. *)
Definition is_available_body (devices : gset Z) (t : tensor) : bool + gset Z :=
  if negb (is_contiguous t) then inl false
  else
    let device := get_device t in
    if decide (device ∈ devices) then inl false
    else inr (devices ∪ {[device]}).

(** The loop of [is_available], started with [devices]: the value returned,
    and the tensors the iteration never reached. *)
Fixpoint is_available_run (devices : gset Z) (tensors : list tensor)
  : bool * list tensor :=
  match tensors with
  | [] => (true, [])
  | t :: rest =>
      match is_available_body devices t with
      | inl r => (r, rest)
      | inr devices' => is_available_run devices' rest
      end
  end.

Definition is_available (tensors : list tensor) : bool :=
  fst (is_available_run ∅ tensors).

(** *** Exceptions and the import-time state *)

Inductive exn_class :=
  | OSError
  | FileNotFoundError
  | RuntimeError
  | ImportError
  | IndexError.

#[global] Instance exn_class_eq_dec : EqDecision exn_class.
Proof. solve_decision. Defined.

(** [issubclass(c, base)] on the classes above: [FileNotFoundError] derives
    from [OSError]; the others are unrelated. *)
Definition issubclass (c base : exn_class) : bool :=
  match c, base with
  | FileNotFoundError, OSError => true
  | _, _ => bool_decide (c = base)
  end.

Record exn := Exn {
  exn_cls : exn_class;
  exn_msg : string;
}.

Inductive result (A : Type) :=
  | Ok (a : A)
  | Raise (e : exn).
Arguments Ok {A} a.
Arguments Raise {A} e.

(** The process state the module body reads and writes. *)
Record world := World {
  environ : gmap string string;   (* os.environ *)
  existing : gset string;         (* the paths os.path.exists accepts *)
  stdout : list string;           (* the lines printed so far *)
}.

(** A statement of the module body: it may change the world, and it either
    completes or raises.  The world changes made before a raise persist. *)
Definition M (A : Type) : Type := world → world * result A.

#[global] Instance M_ret : MRet M := λ A a w, (w, Ok a).
#[global] Instance M_bind : MBind M := λ A B k m w,
  match m w with
  | (w', Ok a) => k a w'
  | (w', Raise e) => (w', Raise e)
  end.

Definition raise {A} (e : exn) : M A := λ w, (w, Raise e).

(** [try: body except cls: handler]. *)
Definition try_except {A} (body : M A) (cls : exn_class) (handler : M A) : M A :=
  λ w, match body w with
       | (w', Ok a) => (w', Ok a)
       | (w', Raise e) =>
           if issubclass (exn_cls e) cls then handler w' else (w', Raise e)
       end.

Definition print (line : string) : M unit :=
  λ w, (World (environ w) (existing w) (stdout w ++ [line]), Ok tt).

Definition path_exists (p : string) : M bool :=
  λ w, (w, Ok (bool_decide (p ∈ existing w))).

(** *** [set_env_default] and the environment defaults *)

Definition set_env_default (env : gmap string string) (key value : string)
  : gmap string string :=
  let new_value := default value (env !! key) in
  <[key := new_value]> env.

Definition update_environ (f : gmap string string → gmap string string) : M unit :=
  λ w, (World (f (environ w)) (existing w) (stdout w), Ok tt).

Definition startswith_sep (s : string) : bool :=
  match s with
  | String c _ => bool_decide (c = "/"%char)
  | EmptyString => false
  end.

Fixpoint endswith_sep (s : string) : bool :=
  match s with
  | EmptyString => false
  | String c EmptyString => bool_decide (c = "/"%char)
  | String _ rest => endswith_sep rest
  end.

(** [os.path.join(a, b)] (posixpath, two arguments). *)
Definition path_join (a b : string) : string :=
  if startswith_sep b then b
  else if bool_decide (a = "") || endswith_sep a then a ++ b
  else a ++ "/" ++ b.

(** *** The module body *)

(** How [dlopen] answers for a path. *)
Inductive dlopen_result :=
  | Loaded (handle : positive)
  | FileMissing
  | Unloadable.

(** What the module body gets from code outside this file: the outcome of the
    two package imports ([None] when the import succeeds), what [torch] says
    about XPU, the dynamic loader, and the names [dir(ccl_lib)] lists. *)
Record externals := Externals {
  version_import : option exn;
  C_import : option exn;
  hasattr_xpu : bool;
  xpu_is_available : bool;
  dlopen : string → dlopen_result;
  dir_ccl_lib : list string;
}.

(** [ctypes.cdll.LoadLibrary(path)]: ctypes raises [OSError] with the loader's
    message when [dlopen] fails. *)
Definition LoadLibrary (ext : externals) (path : string) : M positive :=
  match dlopen ext path with
  | Loaded h => mret h
  | FileMissing =>
      raise (Exn OSError (path ++ ": cannot open shared object file"))
  | Unloadable =>
      raise (Exn OSError (path ++ ": invalid shared object"))
  end.

(** [from . import name]: completes, or raises what the import raised. *)
Definition import_from (outcome : option exn) : M unit :=
  match outcome with
  | None => mret tt
  | Some e => raise e
  end.

Definition not_installed : exn :=
  Exn RuntimeError "oneccl_bindings_for_pytorch is not installed!".

Definition xpu_warning : string :=
  "Warning: Cannot load xpu CCL. CCL doesn't work for XPU device".

(** Lines 15 to 18: the two environment defaults. *)
Definition env_defaults (cwd : string) : M unit :=
  update_environ (λ env, set_env_default env "CCL_ROOT" cwd);;
  let FI_PROVIDER_PATH := path_join cwd "lib/prov" in
  update_environ (λ env, set_env_default env "FI_PROVIDER_PATH" FI_PROVIDER_PATH).

(** Lines 20 and 21: the installation check. *)
Definition version_check (cwd : string) : M unit :=
  found ← path_exists (path_join cwd "version.py");
  if negb found then raise not_installed else mret tt.

(** Lines 26 to 33: the XPU library load.  The value is the binding of
    [my_c_library] afterwards ([None]: the name stays unbound). *)
Definition load_xpu (cwd : string) (ext : externals) : M (option positive) :=
  if hasattr_xpu ext then
    if xpu_is_available ext then
      try_except
        (h ← LoadLibrary ext
               (path_join cwd "lib/liboneccl_bindings_for_pytorch_xpu.so");
         mret (Some h))
        OSError
        (print xpu_warning;; mret None)
    else mret None
  else mret None.

(** Lines 35 to 38: [__all__], the exported names of [_C]; [name[0]] raises
    [IndexError] on an empty name. *)
Definition string_index_out_of_range : exn :=
  Exn IndexError "string index out of range".

Definition export_names (ext : externals) : M (list string) :=
  match Exports.all_names (dir_ccl_lib ext) with
  | inl Exports.IndexError => raise string_index_out_of_range
  | inr names => mret names
  end.

(** The module globals the rest of the package uses. *)
Record globals := Globals {
  g_cwd : string;
  g_FI_PROVIDER_PATH : string;
  g_my_c_library : option positive;
  g_all : list string;
}.

(** The module body, in source order, for the package directory [cwd]. *)
Definition import_module (cwd : string) (ext : externals) : M globals :=
  env_defaults cwd;;
  version_check cwd;;
  import_from (version_import ext);;
  import_from (C_import ext);;
  lib ← load_xpu cwd ext;
  names ← export_names ext;
  mret (Globals cwd (path_join cwd "lib/prov") lib names).

(** *** [set_env_default] on [os.environ] *)

(** The assignment [os.environ[key] = value] goes through [putenv], which
    refuses an empty name, a name with [=] in it, and a NUL in the name or
    in the value. *)
Fixpoint has_char (c : ascii) (s : string) : bool :=
  match s with
  | EmptyString => false
  | String c' rest => bool_decide (c' = c) || has_char c rest
  end.

Definition environ_accepts (key value : string) : bool :=
  negb (bool_decide (key = ""))
  && negb (has_char "="%char key)
  && negb (has_char "000"%char key)
  && negb (has_char "000"%char value).

(** [set_env_default(env, key, value)] for [env = os.environ], as the module
    body calls it: [None] when the assignment of line 9 raises. *)
Definition set_env_default_environ (env : gmap string string)
    (key value : string) : option (gmap string string) :=
  let new_value := default value (env !! key) in
  if environ_accepts key new_value then Some (<[key := new_value]> env)
  else None.

(** The world with another environment, resp. another output. *)
Definition with_environ (env : gmap string string) (w : world) : world :=
  World env (existing w) (stdout w).

Definition with_stdout (out : list string) (w : world) : world :=
  World (environ w) (existing w) out.

(** The environment the two defaults of the module body leave behind. *)
Definition defaults_of (cwd : string) (env : gmap string string)
  : gmap string string :=
  set_env_default (set_env_default env "CCL_ROOT" cwd)
    "FI_PROVIDER_PATH" (path_join cwd "lib/prov").

End Binding.

(** ** Part II: the collective engine

    The binding imports the native module [_C] and forwards every collective
    to it; the engine itself is not part of the Python sources.  The
    definitions below follow the specification of the engine: ranks exchange
    buffers through a point-to-point Transport, along a ring (all-gather) or
    along a tree of ranks rooted at the root rank (broadcast, reduce,
    all-reduce). *)

Module Collective.

Local Close Scope string_scope.
Local Open Scope list_scope.

(** Modelled from the spec: the events of a rank during a call, a
    Transport [send] or [recv] with a peer (section 4.1) and the return to
    the caller.  The Transport and the engine that drives it belong to the
    native module [_C], which is not among the sources. *)
Inductive event (E : Type) :=
  | SendTo (peer : nat) (data : list E)
  | RecvFrom (peer : nat) (data : list E)
  | Return.
Arguments SendTo {E} peer data.
Arguments RecvFrom {E} peer data.
Arguments Return {E}.

Definition is_transport {E} (e : event E) : bool :=
  match e with
  | Return => false
  | _ => true
  end.

Definition is_send {E} (e : event E) : bool :=
  match e with
  | SendTo _ _ => true
  | _ => false
  end.

(** Modelled from the spec: the topology of a process group, "a rooted tree
    for fan-in/fan-out exchange" of ranks; the spec leaves its shape to the
    implementation, and the native engine that fixes it is not among the
    sources. *)
Inductive tree :=
  | Node (rank : nat) (children : list tree).

Definition root_of (t : tree) : nat :=
  match t with Node r _ => r end.

Fixpoint ranks_of (t : tree) : list nat :=
  match t with Node r cs => r :: (cs ≫= ranks_of) end.

(** The tree holds each rank of [[0, world_size)] exactly once. *)
Definition spans (world_size : nat) (t : tree) : Prop :=
  ranks_of t ≡ₚ seq 0 world_size.

#[global] Instance spans_dec world_size t : Decision (spans world_size t).
Proof. unfold spans. apply _. Defined.

(** Modelled from the spec: two shapes for the tree of the missing engine,
    every rank a child of the root, and the binomial tree the spec
    recommends (the rank at distance [v] from the root forwards to
    [v + 2^k] for the [k] with [2^k > v]). *)
Definition star (world_size root : nat) : tree :=
  Node root ((λ r, Node r []) <$> filter (λ r, r ≠ root) (seq 0 world_size)).

Fixpoint binomial_from (world_size root fuel lo v : nat) : tree :=
  let r := (v + root) mod world_size in
  match fuel with
  | 0 => Node r []
  | S fuel' =>
      Node r ((λ k, binomial_from world_size root fuel' (S k) (v + 2 ^ k))
                <$> filter (λ k, v + 2 ^ k < world_size) (seq lo fuel))
  end.

Definition binomial (world_size root : nat) : tree :=
  binomial_from world_size root world_size 0 0.

Section Engine.
Context {E : Type}.

(** The reduction operator on elements ([sum], [max], [min], [product]). *)
Variable op : E → E → E.

Abbreviation buffer := (list E).

(** Modelled from the spec: the ranks of a process group (section 3), each
    with its own memory [M], the buffers it passed to the call, and the
    events it went through; the native process group is not among the
    sources. *)
Record net (M : Type) := Net {
  mem : nat → M;
  log : nat → list (event E);
}.
Arguments Net {M} mem log.
Arguments mem {M} n r.
Arguments log {M} n r.

(** Rank [r] goes through event [e]; rank [r] gets memory [m]. *)
Definition record {M} (r : nat) (e : event E) (n : net M) : net M :=
  Net (mem n) (<[r := log n r ++ [e]]> (log n)).

Definition store {M} (r : nat) (m : M) (n : net M) : net M :=
  Net (<[r := m]> (mem n)) (log n).

(** Modelled from the spec: one exchange over the missing Transport,
    [send] at [src] and [recv] at [dst] (section 4.1); the receiver stores
    the data with [deliver]. *)
Definition transfer {M} (src dst : nat) (data : buffer)
    (deliver : buffer → M → M) (n : net M) : net M :=
  let n1 := record src (SendTo dst data) n in
  let n2 := record dst (RecvFrom src data) n1 in
  store dst (deliver data (mem n2 dst)) n2.

(** *** All-gather *)

(** Modelled from the spec: the "logical cycle of ranks" of the missing
    engine's ring algorithm. *)
Definition ring_succ (world_size r : nat) : nat := (r + 1) mod world_size.
Definition ring_pred (world_size r : nat) : nat :=
  (r + world_size - 1) mod world_size.

(** Modelled from the spec: the slot of the "currently-held newest chunk"
    of rank [r] at step [s] of the missing ring algorithm, its own at step
    0, then the one received in the step before. *)
Definition newest_slot (world_size r s : nat) : nat :=
  (r + world_size - s) mod world_size.

(** Modelled from the spec: the start of the missing all-gather, every rank
    puts its own input in its own slot of its output array ("indexed by
    rank"). *)
Definition ag_init (world_size : nat) (inputs : nat → buffer)
    (n : net (list buffer)) : net (list buffer) :=
  Net (λ r, if decide (r < world_size)
            then <[r := inputs r]> (mem n r) else mem n r)
      (log n).

(** Modelled from the spec: one step of the ring of the missing engine,
    "rank [r] sends its currently-held newest chunk to its ring-successor
    and receives from its ring-predecessor, placing received data at the
    predecessor's origin-rank slot".  All ranks read the state before the
    step. *)
Definition ag_step (world_size s : nat) (n : net (list buffer))
    : net (list buffer) :=
  let sent r := default [] (mem n r !! newest_slot world_size r s) in
  Net (λ r, if decide (r < world_size)
            then let p := ring_pred world_size r in
                 <[newest_slot world_size p s := sent p]> (mem n r)
            else mem n r)
      (λ r, if decide (r < world_size)
            then log n r ++ [SendTo (ring_succ world_size r) (sent r);
                             RecvFrom (ring_pred world_size r)
                               (sent (ring_pred world_size r))]
            else log n r).

(** Every rank of the group returns to its caller. *)
Definition finish_all {M} (world_size : nat) (n : net M) : net M :=
  Net (mem n)
      (λ r, if decide (r < world_size) then log n r ++ [Return] else log n r).

(** Modelled from the spec: the state of the missing all-gather after the
    first [s] steps of the ring. *)
Definition ag_after (world_size : nat) (inputs : nat → buffer) (s : nat)
    (n : net (list buffer)) : net (list buffer) :=
  foldl (λ n s, ag_step world_size s n) (ag_init world_size inputs n) (seq 0 s).

(** Modelled from the spec: AllGather(input, output[world_size]) of the
    missing engine, the ring algorithm of [world_size - 1] steps, after
    which every rank returns. *)
Definition all_gather (world_size : nat) (inputs : nat → buffer)
    (n : net (list buffer)) : net (list buffer) :=
  finish_all world_size (ag_after world_size inputs (world_size - 1) n).

(** *** Broadcast *)

(** Modelled from the spec: the way down the tree in the missing engine,
    "rank [r] receives from its tree-parent, then forwards to tree-children
    before the call is considered locally complete".  [payload] reads the
    buffer that travels and [deliver] writes it. *)
Fixpoint push_down {M} (payload : M → buffer) (deliver : buffer → M → M)
    (t : tree) (n : net M) : net M :=
  match t with
  | Node r cs =>
      let data := payload (mem n r) in
      let n1 := foldl (λ n c, transfer r (root_of c) data deliver n) n cs in
      let n2 := record r Return n1 in
      foldl (λ n c, push_down payload deliver c n) n2 cs
  end.

(** Modelled from the spec: Broadcast(root, buffer) of the missing engine,
    on the tree rooted at [root]; the memory of a rank is its buffer. *)
Definition broadcast (t : tree) (n : net buffer) : net buffer :=
  push_down id (λ data _, data) t n.

(** *** Reduce and all-reduce *)

Record io := IO {
  input : buffer;
  output : buffer;
}.

(** The order in which the partial results of its children reach a rank,
    which the run decides: [arrival r msgs] rearranges the messages
    [(child, partial result)] sent to [r]. *)
Variable arrival : nat → list (nat * buffer) → list (nat * buffer).

(** Modelled from the spec: the combination step of the missing reduction,
    elementwise [op] of the children's partial results in the order given,
    "then own value". *)
Definition combine (parts : list buffer) (own : buffer) : buffer :=
  match parts with
  | [] => own
  | p :: ps => zip_with op (foldl (zip_with op) p ps) own
  end.

(** Modelled from the spec: the partial result of a subtree in the missing
    reduction, "each non-leaf rank waits for all children's partial results,
    combines with its own input using [op] in a fixed deterministic order
    (by ascending child rank, then own value)".  The messages
    [(child, partial result)] reach the rank in the order [arrival] gives
    them; the rank looks them up by ascending child rank. *)
Fixpoint partial (inputs : nat → buffer) (t : tree) : buffer :=
  match t with
  | Node r cs =>
      let msgs := arrival r ((λ c, (root_of c, partial inputs c)) <$> cs) in
      let inbox : gmap nat buffer := list_to_map msgs in
      combine (omap (λ c, inbox !! c) (merge_sort (≤) (root_of <$> cs)))
        (inputs r)
  end.

(** Rank [r] returns to its caller, when [ret]. *)
Definition finish {M} (ret : bool) (r : nat) (n : net M) : net M :=
  if ret then record r Return n else n.

(** Modelled from the spec: the way up the tree in the missing engine, every
    rank but the root "forwards upward" its partial result to its parent
    (and returns, when [ret]); no user buffer is written on the way. *)
Fixpoint pull_up {M} (ret : bool) (inputs : nat → buffer) (t : tree)
    (n : net M) : net M :=
  match t with
  | Node r cs =>
      foldl (λ n c,
               finish ret (root_of c)
                 (transfer (root_of c) r (partial inputs c) (λ _ m, m)
                    (pull_up ret inputs c n)))
        n cs
  end.

Definition set_output (data : buffer) (m : io) : io := IO (input m) data.

(** Modelled from the spec: Reduce(root, op, input, output) of the missing
    engine, "only [root]'s output buffer receives the result". *)
Definition reduce (t : tree) (n : net io) : net io :=
  let inputs r := input (mem n r) in
  let root := root_of t in
  let n1 := pull_up true inputs t n in
  record root Return (store root (set_output (partial inputs t) (mem n1 root)) n1).

(** Modelled from the spec: AllReduce(op, input, output) of the missing
    engine, as reduce-then-broadcast on the tree. *)
Definition all_reduce (t : tree) (n : net io) : net io :=
  let inputs r := input (mem n r) in
  let root := root_of t in
  let n1 := pull_up false inputs t n in
  push_down output set_output t
    (store root (set_output (partial inputs t) (mem n1 root)) n1).

(** The reduction in "naive left-to-right rank order", to compare the order
    of the tree with. *)
Definition rank_order (world_size : nat) (inputs : nat → buffer) : buffer :=
  match inputs <$> seq 0 world_size with
  | [] => []
  | x :: xs => foldl (zip_with op) x xs
  end.

End Engine.

Arguments net : clear implicits.
Arguments io : clear implicits.
Arguments Net {E M} mem log.
Arguments mem {E M} n r.
Arguments log {E M} n r.
Arguments IO {E} input output.
Arguments input {E} i.
Arguments output {E} i.

(** A group whose ranks went through no event yet. *)
Definition fresh {E M} (m : nat → M) : net E M := Net m (λ _, []).

(** Messages arrive in the order the children are listed. *)
Definition in_order {E} : nat → list (nat * list E) → list (nat * list E) :=
  λ _ msgs, msgs.

(** What a call adds to the events of a rank: a rank that only forwards,
    and a rank that first receives [data] from its parent. *)
Definition returns_after_sends {E} (before after : list (event E)) : Prop :=
  ∃ sends, Forall (λ e, is_send e = true) sends
           ∧ after = before ++ sends ++ [Return].

Definition returns_after_recv {E} (data : list E)
    (before after : list (event E)) : Prop :=
  ∃ parent sends, Forall (λ e, is_send e = true) sends
                  ∧ after = before ++ RecvFrom parent data :: sends ++ [Return].

(** What [push_down] on [t] does at rank [x], from [n] to [n']: nothing
    outside the tree, sends at the root, and elsewhere the receipt of [d]
    followed by sends. *)
Definition pushed {E M} (deliver : list E → M → M) (d : list E) (t : tree)
    (n n' : net E M) (x : nat) : Prop :=
  (x ∉ ranks_of t → mem n' x = mem n x ∧ log n' x = log n x)
  ∧ (x = root_of t →
     mem n' x = mem n x ∧ returns_after_sends (log n x) (log n' x))
  ∧ (x ∈ ranks_of t → x ≠ root_of t →
     mem n' x = deliver d (mem n x)
     ∧ returns_after_recv d (log n x) (log n' x)).

(** The same for the trees [cs] under one parent, each of them entered with
    [d] at its root. *)
Definition pushed_all {E M} (deliver : list E → M → M) (d : list E)
    (cs : list tree) (n n' : net E M) (x : nat) : Prop :=
  (x ∉ cs ≫= ranks_of → mem n' x = mem n x ∧ log n' x = log n x)
  ∧ (x ∈ root_of <$> cs →
     mem n' x = mem n x ∧ returns_after_sends (log n x) (log n' x))
  ∧ (x ∈ cs ≫= ranks_of → x ∉ root_of <$> cs →
     mem n' x = deliver d (mem n x)
     ∧ returns_after_recv d (log n x) (log n' x)).

Definition push_down_ok {E M} (payload : M → list E)
    (deliver : list E → M → M) (t : tree) : Prop :=
  ∀ (n : net E M) x, NoDup (ranks_of t) →
    pushed deliver (payload (mem n (root_of t))) t n
      (push_down payload deliver t n) x.

(** The combination of a list of buffers by elementwise [op], [None] for
    the empty list. *)
Definition oplus {E} (op : E → E → E) : option (list E) → option (list E)
    → option (list E) :=
  union_with (λ a b, Some (zip_with op a b)).

Definition combination {E} (op : E → E → E) (parts : list (list E))
    : option (list E) :=
  foldr (oplus op) None (Some <$> parts).

(** The number of Transport calls a rank made. *)
Definition transport_calls {E} (events : list (event E)) : nat :=
  length (filter (λ e, is_transport e = true) events).

(** A call that completes at a rank without any Transport call. *)
Definition local_only {E} (before after : list (event E)) : Prop :=
  after = before ++ [Return]
  ∧ transport_calls after = transport_calls before.

End Collective.

(** ** Part III: the test script *)

Module Script.

(** [tests/DeepSpeed_test/testccl_cpu.py]: the worker reads a table of
    collective calls from a CSV file and issues them, round after round. *)

Local Open Scope list_scope.

(** How the script ends when it does not complete: with an exception of
    one of its own statements, or with the exception a call into torch
    raised, of whatever class. *)
Inductive error :=
  | IndexError          (* a list of the script indexed out of range *)
  | ValueError          (* [int] of a malformed text, a wrong field count *)
  | FileNotFoundError   (* [open] of a missing file *)
  | SystemExit          (* [exit()] *)
  | TorchError (class : string).  (* raised inside a call into torch *)

(** A tensor made by [torch.randn(size)]: the identity of the object and
    its length. *)
Record tensor := Tensor {
  t_id : nat;
  t_len : Z;
}.

(** An entry of the list [output]: the input tensor itself, or the list of
    tensors an all-gather fills. *)
Inductive slot :=
  | One (t : tensor)
  | Many (ts : list tensor).

(** What the script does that others can see: the lines it prints and the
    calls it makes into [torch.distributed]. *)
Inductive event :=
  | Print (line : string)
  | Reduce (t : tensor) (root : Z)
  | AllReduce (t : tensor)
  | AllGather (out : slot) (t : tensor)
  | Broadcast (t : tensor) (root : Z).

Record state := State {
  files : gmap string (list string);  (* the lines of each file there is *)
  environ : gmap string string;       (* os.environ *)
  next_id : nat;                      (* the tensors made so far *)
  trace : list event;                 (* the events so far, oldest first *)
}.

(** How torch answers the script, from outside it: whether
    [torch.randn(size)], [data.to(device)], the set-up of the process group
    and a call into [torch.distributed] raise, each in the state the script
    is in ([None]: the call returns; [Some class]: it raises an exception
    of that class). *)
Record torch_api := Torch {
  randn_raises : state → Z → option string;
  to_raises : state → tensor → string → option string;
  init_raises : state → option string;
  call_raises : state → event → option string;
}.

Definition Py (A : Type) : Type := state → state * (error + A).

#[global] Instance Py_ret : MRet Py := λ A a st, (st, inr a).
#[global] Instance Py_bind : MBind Py := λ A B k m st,
  match m st with
  | (st', inr a) => k a st'
  | (st', inl e) => (st', inl e)
  end.

Definition raise {A} (e : error) : Py A := λ st, (st, inl e).

Definition emit (e : event) : Py unit :=
  λ st, (State (files st) (environ st) (next_id st) (trace st ++ [e]), inr tt).

Definition print (line : string) : Py unit := emit (Print line).

Definition setenv (key value : string) : Py unit :=
  λ st, (State (files st) (<[key := value]> (environ st)) (next_id st) (trace st),
         inr tt).

(** [open(filename, "r")] and the lines the loop over the file yields. *)
Definition open (filename : string) : Py (list string) :=
  λ st, match files st !! filename with
        | Some lines => (st, inr lines)
        | None => (st, inl FileNotFoundError)
        end.

(** [l[i]]. *)
Definition getitem {A} (l : list A) (i : nat) : Py A :=
  match l !! i with
  | Some x => mret x
  | None => raise IndexError
  end.

(** [len(x)] of an entry of [output]. *)
Definition slot_len (s : slot) : Z :=
  match s with
  | One t => t_len t
  | Many ts => Z.of_nat (length ts)
  end.

(** [s.split(",")]. *)
Fixpoint split_comma (s : string) : list string :=
  match s with
  | EmptyString => [EmptyString]
  | String c rest =>
      if bool_decide (c = ","%char) then EmptyString :: split_comma rest
      else match split_comma rest with
           | field :: fields => String c field :: fields
           | [] => [String c EmptyString]
           end
  end.

(** [",".join(fields)]. *)
Fixpoint join_comma (fields : list string) : string :=
  match fields with
  | [] => EmptyString
  | [field] => field
  | field :: fields => (field ++ "," ++ join_comma fields)%string
  end.

Fixpoint commas (s : string) : nat :=
  match s with
  | EmptyString => 0
  | String c rest => (if bool_decide (c = ","%char) then 1 else 0) + commas rest
  end.

(** The globals of the script. *)
Definition world_size : Z := 12.
Definition rounds : Z := 100.
Definition input_file : string := "DeepSpeed.csv".

Section Builtins.

(** The builtins [int] ([None]: [ValueError]) and [str.strip], and torch. *)
Variable int : string → option Z.
Variable strip : string → string.
Variable torch : torch_api.

(** A call into torch that returns nothing the script keeps. *)
Definition torch_call (raises : state → option string) : Py unit :=
  λ st, match raises st with
        | Some e => (st, inl (TorchError e))
        | None => (st, inr tt)
        end.

(** [torch.randn(size, dtype = type)]: a new tensor, unless torch refuses
    the size. *)
Definition randn (size : Z) : Py tensor :=
  torch_call (λ st, randn_raises torch st size);;
  ((λ st, (State (files st) (environ st) (S (next_id st)) (trace st),
           inr (Tensor (next_id st) size))) : Py tensor).

(** [data.to(device)]: the value is dropped. *)
Definition to_device (data : tensor) (device : string) : Py unit :=
  torch_call (λ st, to_raises torch st data device).

(** A blocking call into [torch.distributed]: the call is made, and it
    returns or raises. *)
Definition dist_call (e : event) : Py unit :=
  emit e;;
  torch_call (λ st, call_raises torch st e).

Definition int_of (text : string) : Py Z :=
  match int text with
  | Some z => mret z
  | None => raise ValueError
  end.

(** The table [read_file] builds. *)
Record table := Table {
  ops : list string;
  sizes : list Z;
  roots : list Z;
}.

(** The body of the loop over the lines of the file. *)
Definition read_line (line : string) (t : table) : Py table :=
  match split_comma (strip line) with
  | [op; size; root] =>
      size ← int_of size;
      root ← int_of root;
      if bool_decide (world_size ≤ root)%Z then
        print ("Invalid root " ++ pretty root)%string;;
        raise SystemExit
      else
        mret (Table (ops t ++ [op]) (sizes t ++ [size]) (roots t ++ [root]))
  | _ => raise ValueError
  end.

Fixpoint read_lines (lines : list string) (t : table) : Py table :=
  match lines with
  | [] => mret t
  | line :: rest => t' ← read_line line t; read_lines rest t'
  end.

(** [read_file(filename)]; [f.close()] has no effect that is modelled. *)
Definition read_file (filename : string) : Py table :=
  lines ← open filename;
  read_lines lines (Table [] [] []).

(** [range(0, n)]. *)
Definition range (n : Z) : list nat := seq 0 (Z.to_nat n).

(** [tmp_output]: [world_size] more tensors of the same size. *)
Fixpoint randn_many (n : nat) (size : Z) (device : string)
    (acc : list tensor) : Py (list tensor) :=
  match n with
  | 0 => mret acc
  | S n' =>
      data ← randn size;
      to_device data device;;
      randn_many n' size device (acc ++ [data])
  end.

(** The first loop of [test_ccl], over [idxs]: the tensors of [input] and
    [output]. *)
Fixpoint init_tensors (idxs : list nat) (ops : list string) (sizes : list Z)
    (device : string) (input : list tensor) (output : list slot)
    : Py (list tensor * list slot) :=
  match idxs with
  | [] => mret (input, output)
  | i :: idxs' =>
      size ← getitem sizes i;
      data ← randn size;
      to_device data device;;
      let input := input ++ [data] in
      op ← getitem ops i;
      if bool_decide (op = "allgather") then
        tmp_output ← randn_many (Z.to_nat world_size) size device [];
        init_tensors idxs' ops sizes device input (output ++ [Many tmp_output])
      else
        init_tensors idxs' ops sizes device input (output ++ [One data])
  end.

Definition when (b : bool) (m : Py unit) : Py unit :=
  if b then m else mret tt.

(** The body of the inner loop of [test_ccl], for the index [i]: four [if]
    statements in a row, each with its [print] and its blocking call into
    [torch.distributed].  The arguments are evaluated in the order of the
    source. *)
Definition issue (rank : Z) (ops : list string) (roots : list Z)
    (input : list tensor) (output : list slot) (i : nat) : Py unit :=
  op ← getitem ops i;
  when (bool_decide (op = "reduce"))
    (root ← getitem roots i;
     t ← getitem input i;
     print ("Rank " ++ pretty rank ++ ": reduce to " ++ pretty root
            ++ " w/ size " ++ pretty (t_len t))%string;;
     t ← getitem input i;
     root ← getitem roots i;
     dist_call (Reduce t root));;
  op ← getitem ops i;
  when (bool_decide (op = "allreduce"))
    (t ← getitem input i;
     print ("Rank " ++ pretty rank ++ ": all_reduce w/ size "
            ++ pretty (t_len t))%string;;
     t ← getitem input i;
     dist_call (AllReduce t));;
  op ← getitem ops i;
  when (bool_decide (op = "allgather"))
    (t ← getitem input i;
     out ← getitem output i;
     print ("Rank " ++ pretty rank ++ ": all_gather w/ size "
            ++ pretty (t_len t) ++ " & " ++ pretty (slot_len out)
            ++ " elements")%string;;
     out ← getitem output i;
     t ← getitem input i;
     dist_call (AllGather out t));;
  op ← getitem ops i;
  when (bool_decide (op = "broadcast"))
    (root ← getitem roots i;
     t ← getitem input i;
     print ("Rank " ++ pretty rank ++ ": broadcast from " ++ pretty root
            ++ " w/ size " ++ pretty (t_len t))%string;;
     t ← getitem input i;
     root ← getitem roots i;
     dist_call (Broadcast t root)).

Fixpoint for_each {A} (l : list A) (body : A → Py unit) : Py unit :=
  match l with
  | [] => mret tt
  | x :: rest => body x;; for_each rest body
  end.

Definition test_ccl (ops : list string) (sizes : list Z) (roots : list Z)
    (device : string) (rank : Z) (rounds : Z) : Py unit :=
  print ("Rank " ++ pretty rank ++ ": starting to initialize tensors ...")%string;;
  '(input, output) ← init_tensors (range (Z.of_nat (length sizes))) ops sizes
                        device [] [];
  print ("Rank " ++ pretty rank ++ ": tensors initialization finished!")%string;;
  for_each (range rounds) (λ k,
    for_each (range (Z.of_nat (length ops))) (issue rank ops roots input output)).

(** [worker(given_rank)]; [group_rank] is what [dist.get_rank()] answers
    once [dist.init_process_group] has set up the group. *)
Definition worker (given_rank : Z) (group_rank : Z) : Py unit :=
  setenv "MASTER_ADDR" "localhost";;
  setenv "MASTER_PORT" "6789";;
  setenv "WORLD_SIZE" (pretty world_size);;
  setenv "RANK" (pretty given_rank);;
  torch_call (init_raises torch);;
  let rank := group_rank in
  let device := "cpu" in
  t ← read_file input_file;
  test_ccl (ops t) (sizes t) (roots t) device rank rounds.

End Builtins.

(** The state after some more events. *)
Definition add_trace (st : state) (events : list event) : state :=
  State (files st) (environ st) (next_id st) (trace st ++ events).

(** The state after [n] more tensors. *)
Definition add_tensors (st : state) (n : nat) : state :=
  State (files st) (environ st) (next_id st + n) (trace st).

(** An entry of [output] that fits the tensor [t] of [input] in an
    all-gather: a list of [world_size] tensors, each as long as [t] and none
    of them [t] itself. *)
Definition gather_slot (t : tensor) (s : slot) : Prop :=
  ∃ ts, s = Many ts ∧ length ts = Z.to_nat world_size
        ∧ Forall (λ t', t_len t' = t_len t ∧ t_id t' ≠ t_id t) ts.

(** [input] and [output] fit the table: as many entries in both, and a
    fitting list in [output] wherever the operation is an all-gather. *)
Definition ready (ops : list string) (input : list tensor)
    (output : list slot) : Prop :=
  length input = length output
  ∧ ∀ i t s, input !! i = Some t → output !! i = Some s →
      ops !! i = Some "allgather" → gather_slot t s.

(** A call whose arguments fit: a root taken from [roots], a fitting
    output list for an all-gather. *)
Definition call_ok (roots : list Z) (e : event) : Prop :=
  match e with
  | Print _ => True
  | Reduce _ root | Broadcast _ root => root ∈ roots
  | AllReduce _ => True
  | AllGather out t => gather_slot t out
  end.

(** Torch makes a tensor of [size] and moves a tensor to [device],
    whenever it is asked. *)
Definition tensor_accepted (torch : torch_api) (size : Z) (device : string)
    : Prop :=
  (∀ st, randn_raises torch st size = None)
  ∧ (∀ st t, to_raises torch st t device = None).

(** So for the sizes at the indices below [bound]. *)
Definition setup_accepted (torch : torch_api) (sizes : list Z)
    (device : string) (bound : nat) : Prop :=
  ∀ i size, (i < bound)%nat → sizes !! i = Some size →
    tensor_accepted torch size device.

(** Every call into [torch.distributed] returns. *)
Definition calls_return (torch : torch_api) : Prop :=
  ∀ st e, call_raises torch st e = None.

(** Torch raised [e] when asked for a tensor of [size], or to move a tensor
    to [device]. *)
Definition tensor_refused (torch : torch_api) (size : Z) (device : string)
    (e : string) : Prop :=
  (∃ st, randn_raises torch st size = Some e)
  ∨ (∃ st t, to_raises torch st t device = Some e).

(** So for one of the sizes at the indices below [bound]. *)
Definition setup_refused (torch : torch_api) (sizes : list Z)
    (device : string) (bound : nat) (e : string) : Prop :=
  ∃ i size, (i < bound)%nat ∧ sizes !! i = Some size
    ∧ tensor_refused torch size device e.

(** Torch raised [e] in a call into [torch.distributed]. *)
Definition call_refused (torch : torch_api) (e : string) : Prop :=
  ∃ st ev, call_raises torch st ev = Some e.

(** A torch that answers every call. *)
Definition torch_ok : torch_api :=
  Torch (λ _ _, None) (λ _ _ _, None) (λ _, None) (λ _ _, None).

(** A torch that refuses negative sizes, and roots below zero. *)
Definition torch_strict : torch_api :=
  Torch (λ _ size, if bool_decide (size < 0)%Z then Some "RuntimeError"
                   else None)
        (λ _ _ _, None) (λ _, None)
        (λ _ e, match e with
                | Reduce _ root | Broadcast _ root =>
                    if bool_decide (root < 0)%Z then Some "ValueError"
                    else None
                | _ => None
                end).

(** The operation a line of the file names: its first field. *)
Definition line_op (strip : string → string) (line : string) : string :=
  hd EmptyString (split_comma (strip line)).

(** The environment the worker sets up for the process group. *)
Definition worker_environ (given_rank : Z) (env : gmap string string)
    : gmap string string :=
  <["RANK" := pretty given_rank]>
    (<["WORLD_SIZE" := pretty world_size]>
       (<["MASTER_PORT" := "6789"]> (<["MASTER_ADDR" := "localhost"]> env))).

(** A call whose root, if it has one, is below [world_size]. *)
Definition root_below (e : event) : Prop :=
  match e with
  | Reduce _ root | Broadcast _ root => (root < world_size)%Z
  | _ => True
  end.

(** The calls into [torch.distributed] among some events. *)
Definition is_call (e : event) : bool :=
  match e with
  | Print _ => false
  | _ => true
  end.

Definition calls (events : list event) : list event :=
  filter (λ e, is_call e = true) events.

(** The operation names the script knows. *)
Definition known (op : string) : bool :=
  bool_decide (op ∈ ["reduce"; "allreduce"; "allgather"; "broadcast"]).

(** The calls the inner loop of [test_ccl] makes at the index [i]. *)
Definition calls_at (ops : list string) (i : nat) : nat :=
  match ops !! i with
  | Some op => if known op then 1 else 0
  | None => 0
  end.

(** A reader of decimal numbers and a [strip] for the examples: digits
    with an optional minus sign, and the removal of blanks and line ends at
    both ends. *)
Fixpoint digits (s : string) (acc : Z) : option Z :=
  match s with
  | EmptyString => Some acc
  | String c rest =>
      let n := nat_of_ascii c in
      if bool_decide (48 ≤ n ≤ 57)%nat
      then digits rest (10 * acc + Z.of_nat (n - 48))%Z
      else None
  end.

Definition decimal (s : string) : option Z :=
  match s with
  | EmptyString => None
  | String "-" (String c rest) => Z.opp <$> digits (String c rest) 0
  | _ => digits s 0
  end.

Definition is_blank (c : ascii) : bool :=
  bool_decide (c = " "%char) || bool_decide (nat_of_ascii c = 10)
  || bool_decide (nat_of_ascii c = 13) || bool_decide (nat_of_ascii c = 9).

Fixpoint lstrip (s : string) : string :=
  match s with
  | String c rest => if is_blank c then lstrip rest else s
  | EmptyString => EmptyString
  end.

Definition strip_blanks (s : string) : string :=
  String.rev (lstrip (String.rev (lstrip s))).

End Script.

(** ** Part I: properties of the exported names *)

Module ExportsSpec.
Import Exports.
Local Open Scope list_scope.

Lemma endswith_unfold s suffix :
  endswith s suffix
  = String.eqb s suffix
    || match s with
       | EmptyString => false
       | String _ rest => endswith rest suffix
       end.
Proof. by destruct s. Qed.

Lemma endswith_spec s suffix :
  endswith s suffix = true ↔ ∃ p, s = (p ++ suffix)%string.
Proof.
  induction s as [|c s IH]; rewrite endswith_unfold.
  - rewrite orb_false_r, String.eqb_eq. split.
    + intros <-. by exists "".
    + intros [[|c p] Hp]; simpl in Hp; [done|discriminate].
  - rewrite orb_true_iff, String.eqb_eq, IH. split.
    + intros [<-|[p ->]]; [by exists ""|]. by exists (String c p).
    + intros [[|c' p] Hp]; simpl in Hp; [by left|].
      injection Hp as -> ->. right. by exists p.
Qed.

Lemma exported_spec name :
  name ≠ "" →
  ∃ keep, exported name = inr keep
          ∧ (keep = true ↔
             ¬ (∃ rest, name = String "_" rest)
             ∧ ¬ (∃ p, name = (p ++ "Base")%string)).
Proof.
  intros Hne. destruct name as [|c rest]; [done|].
  unfold exported. simpl first_char. eexists. split; [done|].
  rewrite andb_true_iff, negb_true_iff, bool_decide_eq_true.
  rewrite <-not_true_iff_false, endswith_spec. naive_solver.
Qed.

Lemma comprehension_spec names :
  "" ∉ names →
  ∃ kept, comprehension names = inr kept
          ∧ kept `sublist_of` names
          ∧ ∀ name, name ∈ kept ↔
              name ∈ names
              ∧ ¬ (∃ rest, name = String "_" rest)
              ∧ ¬ (∃ p, name = (p ++ "Base")%string).
Proof.
  induction names as [|name names IH]; intros Hne.
  - exists []. split_and!; [done|done|]. intros name. set_solver.
  - apply not_elem_of_cons in Hne as [Hname Hne].
    destruct (IH Hne) as (kept & Hkept & Hsub & Hin).
    destruct (exported_spec name) as (keep & Hkeep & Hiff); [done|].
    simpl. rewrite Hkeep, Hkept. eexists. split; [done|].
    destruct keep.
    + split; [by apply sublist_skip|]. intros n.
      rewrite !elem_of_cons, Hin. naive_solver.
    + split; [by apply sublist_cons|]. intros n.
      rewrite elem_of_cons, Hin. naive_solver.
Qed.

(** X11: when [dir(ccl_lib)] holds no empty name, [__all__] is the names of
    it, in the same order, that do not start with an underscore and do not
    end in [Base]. *)
Theorem all_names_spec (dir_ccl_lib : list string) :
  "" ∉ dir_ccl_lib →
  ∃ kept, all_names dir_ccl_lib = inr kept
          ∧ kept `sublist_of` dir_ccl_lib
          ∧ ∀ name, name ∈ kept ↔
              name ∈ dir_ccl_lib
              ∧ ¬ (∃ rest, name = String "_" rest)
              ∧ ¬ (∃ p, name = (p ++ "Base")%string).
Proof.
  intros Hne. destruct (comprehension_spec _ Hne) as (kept & Hkept & Hrest).
  exists kept. unfold all_names. by rewrite Hkept.
Qed.

Lemma all_names_spec_witness :
  ∃ kept, all_names ["ProcessGroupCCL"; "_C"; "WorkBase"; "Basement"] = inr kept
          ∧ kept `sublist_of` ["ProcessGroupCCL"; "_C"; "WorkBase"; "Basement"]
          ∧ ∀ name, name ∈ kept ↔
              name ∈ ["ProcessGroupCCL"; "_C"; "WorkBase"; "Basement"]
              ∧ ¬ (∃ rest, name = String "_" rest)
              ∧ ¬ (∃ p, name = (p ++ "Base")%string).
Proof.
  apply all_names_spec.
  intros Hin. repeat (apply elem_of_cons in Hin as [Hin|Hin]; [done|]).
  by apply elem_of_nil in Hin.
Defined.

Example all_names_example :
  all_names ["ProcessGroupCCL"; "_C"; "WorkBase"; "Basement"; "Base"]
  = inr ["ProcessGroupCCL"; "Basement"].
Proof. reflexivity. Qed.

Lemma all_names_ok (names : list string) :
  "" ∉ names → ∃ kept, all_names names = inr kept.
Proof.
  intros Hne. destruct (comprehension_spec _ Hne) as (kept & Hkept & _).
  exists kept. unfold all_names. by rewrite Hkept.
Qed.

Lemma all_names_empty_name (names : list string) :
  "" ∈ names → all_names names = inl IndexError.
Proof.
  unfold all_names. induction names as [|name names IH]; intros Hin.
  - by apply elem_of_nil in Hin.
  - simpl. apply elem_of_cons in Hin as [<-|Hin]; [done|].
    destruct (exported name) as [[]|keep]; [done|].
    specialize (IH Hin). by destruct (comprehension names) as [[]|].
Qed.

(** X12: the computation of [__all__] raises [IndexError] exactly when
    [dir(ccl_lib)] holds an empty name. *)
Theorem all_names_error (dir_ccl_lib : list string) :
  all_names dir_ccl_lib = inl IndexError ↔ "" ∈ dir_ccl_lib.
Proof.
  split; [|apply all_names_empty_name].
  intros Herr. destruct (decide ("" ∈ dir_ccl_lib)) as [|Hne]; [done|].
  destruct (all_names_ok _ Hne) as (kept & Hkept). by rewrite Hkept in Herr.
Qed.

End ExportsSpec.

(** ** Part I: properties of the binding module *)

Module BindingSpec.
Import Binding.
Local Open Scope list_scope.

Example path_join_prov :
  path_join "/opt/site-packages/oneccl_bindings_for_pytorch" "lib/prov"
  = "/opt/site-packages/oneccl_bindings_for_pytorch/lib/prov".
Proof. reflexivity. Qed.

(** Joining a relative path to a directory name puts one separator between
    the two. *)
Lemma path_join_relative a b :
  startswith_sep b = false → a ≠ "" → endswith_sep a = false →
  path_join a b = (a ++ "/" ++ b)%string.
Proof.
  intros Hb Ha Hsep. unfold path_join. rewrite Hb, Hsep.
  by rewrite bool_decide_eq_false_2.
Qed.

Example set_env_default_unset :
  set_env_default ∅ "CCL_ROOT" "/pkg" !! "CCL_ROOT" = Some "/pkg".
Proof. reflexivity. Qed.

Example set_env_default_set :
  set_env_default {[ "CCL_ROOT" := "/usr/ccl" ]} "CCL_ROOT" "/pkg" !! "CCL_ROOT"
  = Some "/usr/ccl".
Proof. reflexivity. Qed.

Lemma set_env_default_lookup (env : gmap string string) key value :
  set_env_default env key value !! key = Some (default value (env !! key)).
Proof. unfold set_env_default. by rewrite lookup_insert_eq. Qed.

Lemma set_env_default_other (env : gmap string string) key value k :
  k ≠ key → set_env_default env key value !! k = env !! k.
Proof. intros Hne. unfold set_env_default. by rewrite lookup_insert_ne. Qed.

(** **** [is_available] *)

Example is_available_two_devices :
  is_available [Tensor true 0; Tensor true 1] = true.
Proof. reflexivity. Qed.

Example is_available_same_device :
  is_available_run ∅ [Tensor true 0; Tensor true 0; Tensor true 1]
  = (false, [Tensor true 1]).
Proof. reflexivity. Qed.

Example is_available_non_contiguous :
  is_available_run ∅ [Tensor false 0; Tensor true 1] = (false, [Tensor true 1]).
Proof. reflexivity. Qed.

Lemma is_available_body_continue devices t devices' :
  is_available_body devices t = inr devices' ↔
  is_contiguous t = true ∧ (get_device t ∉ devices)
  ∧ devices' = devices ∪ {[get_device t]}.
Proof.
  unfold is_available_body.
  destruct (is_contiguous t); simpl; [|naive_solver].
  case_decide; naive_solver.
Qed.

Lemma is_available_body_return devices t r :
  is_available_body devices t = inl r ↔
  r = false ∧ (is_contiguous t = false ∨ get_device t ∈ devices).
Proof.
  unfold is_available_body.
  destruct (is_contiguous t); simpl; [|naive_solver].
  case_decide; naive_solver.
Qed.

(** The loop started with [devices] answers [true] exactly when all tensors
    are contiguous, their devices are pairwise distinct, and none of them is
    in [devices] already. *)
Lemma is_available_run_true devices tensors :
  fst (is_available_run devices tensors) = true ↔
  Forall (λ t, is_contiguous t = true) tensors
  ∧ NoDup (get_device <$> tensors)
  ∧ ∀ t, t ∈ tensors → get_device t ∉ devices.
Proof.
  revert devices. induction tensors as [|t rest IH]; intros devices; simpl.
  - split; [intros _|done].
    split_and!; [constructor|constructor|]. intros t Ht. by apply elem_of_nil in Ht.
  - destruct (is_available_body devices t) as [r|devices'] eqn:Hbody.
    + apply is_available_body_return in Hbody as [-> Hbad]. simpl.
      split; [done|]. intros (Hall & Hnd & Hfresh).
      apply Forall_cons in Hall as [Hc _].
      destruct Hbad as [Hbad|Hbad]; [congruence|].
      exfalso. apply (Hfresh t); [left|done].
    + apply is_available_body_continue in Hbody as (Hc & Hnew & ->).
      rewrite IH. rewrite Forall_cons, NoDup_cons. split.
      * intros (Hall & Hnd & Hfresh). split_and!; try done.
        -- intros Hin. apply list_elem_of_fmap in Hin as (t' & Heq & Hin).
           apply Hfresh in Hin. set_solver.
        -- intros t' Hin. apply elem_of_cons in Hin as [->|Hin]; [done|].
           apply Hfresh in Hin. set_solver.
      * intros ((_ & Hall) & (Hnotin & Hnd) & Hfresh). split_and!; try done.
        intros t' Hin. apply not_elem_of_union. split.
        -- apply Hfresh. by right.
        -- intros Heq%elem_of_singleton. apply Hnotin.
           apply list_elem_of_fmap. by exists t'.
Qed.

(** A prefix the loop accepts only grows [devices]. *)
Lemma is_available_run_app devices pre tensors :
  fst (is_available_run devices pre) = true →
  is_available_run devices (pre ++ tensors)
  = is_available_run (devices ∪ list_to_set (get_device <$> pre)) tensors.
Proof.
  revert devices. induction pre as [|t pre IH]; intros devices; simpl.
  - intros _. f_equal. set_solver.
  - destruct (is_available_body devices t) as [r|devices'] eqn:Hbody.
    + apply is_available_body_return in Hbody as [-> _]. done.
    + apply is_available_body_continue in Hbody as (_ & _ & ->).
      intros Hpre. rewrite (IH _ Hpre). f_equal. set_solver.
Qed.

(** C1: [is_available] returns true exactly when every tensor is contiguous
    and no two tensors share a device; and it returns false at the first
    tensor that is non-contiguous or repeats a device, without reaching the
    tensors after it. *)
Theorem is_available_spec (tensors : list tensor) :
  (is_available tensors = true ↔
     Forall (λ t, is_contiguous t = true) tensors
     ∧ NoDup (get_device <$> tensors))
  ∧ (∀ pre t rest,
       tensors = pre ++ t :: rest →
       is_available pre = true →
       is_contiguous t = false ∨ get_device t ∈ (get_device <$> pre) →
       is_available_run ∅ tensors = (false, rest)).
Proof.
  split.
  - unfold is_available. rewrite is_available_run_true. naive_solver set_solver.
  - intros pre t rest -> Hpre Hbad. unfold is_available in Hpre.
    rewrite (is_available_run_app _ _ _ Hpre). simpl.
    destruct (is_available_body _ t) as [r|devices'] eqn:Hbody.
    + apply is_available_body_return in Hbody as [-> _]. done.
    + apply is_available_body_continue in Hbody as (Hc & Hnew & _).
      destruct Hbad as [Hbad|Hbad]; [congruence|].
      exfalso. apply Hnew. set_solver.
Qed.

(** C9: on the empty sequence [is_available] returns true. *)
Theorem is_available_nil : is_available [] = true.
Proof. reflexivity. Qed.

(** **** The module body *)

Lemma env_defaults_run cwd w :
  env_defaults cwd w = (with_environ (defaults_of cwd (environ w)) w, Ok tt).
Proof. reflexivity. Qed.

Lemma version_check_run cwd w :
  version_check cwd w
  = (w, if bool_decide (path_join cwd "version.py" ∈ existing w)
        then Ok tt else Raise not_installed).
Proof.
  unfold version_check, mbind, M_bind, path_exists. simpl.
  by case_bool_decide.
Qed.

Lemma import_from_run outcome w :
  import_from outcome w = (w, from_option Raise (Ok tt) outcome).
Proof. by destruct outcome. Qed.

(** The XPU step by cases on what the loader answers. *)
Lemma load_xpu_run cwd ext w :
  load_xpu cwd ext w =
  if hasattr_xpu ext && xpu_is_available ext then
    match dlopen ext (path_join cwd "lib/liboneccl_bindings_for_pytorch_xpu.so") with
    | Loaded h => (w, Ok (Some h))
    | FileMissing | Unloadable =>
        (with_stdout (stdout w ++ [xpu_warning]) w, Ok None)
    end
  else (w, Ok None).
Proof.
  unfold load_xpu. destruct (hasattr_xpu ext), (xpu_is_available ext); try done.
  simpl. unfold try_except, mbind, M_bind, LoadLibrary.
  by destruct (dlopen ext _).
Qed.

Lemma export_names_run ext w :
  export_names ext w
  = (w, match Exports.all_names (dir_ccl_lib ext) with
        | inl _ => Raise string_index_out_of_range
        | inr names => Ok names
        end).
Proof.
  unfold export_names. by destruct (Exports.all_names _) as [[]|names].
Qed.

(** The module body, step by step. *)
Lemma import_module_eval cwd ext w :
  import_module cwd ext w =
  let w1 := with_environ (defaults_of cwd (environ w)) w in
  let finish lib :=
    match Exports.all_names (dir_ccl_lib ext) with
    | inl _ => Raise string_index_out_of_range
    | inr names => Ok (Globals cwd (path_join cwd "lib/prov") lib names)
    end in
  if bool_decide (path_join cwd "version.py" ∈ existing w) then
    match version_import ext with
    | Some e => (w1, Raise e)
    | None =>
        match C_import ext with
        | Some e => (w1, Raise e)
        | None =>
            if hasattr_xpu ext && xpu_is_available ext then
              match dlopen ext (path_join cwd
                                  "lib/liboneccl_bindings_for_pytorch_xpu.so") with
              | Loaded h => (w1, finish (Some h))
              | FileMissing | Unloadable =>
                  (with_stdout (stdout w1 ++ [xpu_warning]) w1, finish None)
              end
            else (w1, finish None)
        end
    end
  else (w1, Raise not_installed).
Proof.
  unfold import_module, mbind, M_bind.
  rewrite env_defaults_run, version_check_run.
  simpl. case_bool_decide; [|done].
  rewrite !import_from_run.
  destruct (version_import ext); [done|]. simpl.
  destruct (C_import ext); [done|]. simpl.
  rewrite load_xpu_run.
  destruct (_ && _); [|rewrite export_names_run;
                        by destruct (Exports.all_names _)].
  destruct (dlopen ext _); rewrite export_names_run;
    by destruct (Exports.all_names _).
Qed.

(** After the environment defaults, no step of the module body writes to
    [os.environ] or to the file system. *)
Lemma import_module_environ cwd ext w :
  environ (fst (import_module cwd ext w)) = defaults_of cwd (environ w)
  ∧ existing (fst (import_module cwd ext w)) = existing w.
Proof.
  rewrite import_module_eval. simpl.
  case_bool_decide; [|done].
  destruct (version_import ext); [done|].
  destruct (C_import ext); [done|].
  destruct (_ && _); [|done].
  by destruct (dlopen ext _).
Qed.

(** C2: after the module body has run, each of [CCL_ROOT] and
    [FI_PROVIDER_PATH] holds the value derived from the package directory
    ([cwd], resp. [cwd] joined with [lib/prov]) when it was unset before, and
    its earlier value when it was set. *)
Theorem env_defaults_not_overridden cwd ext w :
  let env' := environ (fst (import_module cwd ext w)) in
  (environ w !! "CCL_ROOT" = None → env' !! "CCL_ROOT" = Some cwd)
  ∧ (environ w !! "FI_PROVIDER_PATH" = None →
     env' !! "FI_PROVIDER_PATH" = Some (path_join cwd "lib/prov"))
  ∧ (∀ key v, key = "CCL_ROOT" ∨ key = "FI_PROVIDER_PATH" →
     environ w !! key = Some v → env' !! key = Some v).
Proof.
  simpl. destruct (import_module_environ cwd ext w) as [-> _].
  unfold defaults_of. split_and!.
  - intros Hunset. rewrite set_env_default_other by done.
    by rewrite set_env_default_lookup, Hunset.
  - intros Hunset. rewrite set_env_default_lookup.
    rewrite set_env_default_other by done. by rewrite Hunset.
  - intros key v [->| ->] Hset.
    + rewrite set_env_default_other by done.
      by rewrite set_env_default_lookup, Hset.
    + rewrite set_env_default_lookup.
      rewrite set_env_default_other by done. by rewrite Hset.
Qed.

Example env_defaults_fresh_process :
  let w := World ∅ {[ "/pkg/version.py" ]} [] in
  let env' := environ (fst (import_module "/pkg"
                              (Externals None None false false (λ _, FileMissing) []) w)) in
  env' !! "CCL_ROOT" = Some "/pkg" ∧ env' !! "FI_PROVIDER_PATH" = Some "/pkg/lib/prov".
Proof. vm_compute. done. Qed.

Example env_defaults_user_setting :
  let w := World {[ "FI_PROVIDER_PATH" := "/usr/lib/prov" ]} ∅ [] in
  let env' := environ (fst (import_module "/pkg"
                              (Externals None None false false (λ _, FileMissing) []) w)) in
  env' !! "CCL_ROOT" = Some "/pkg" ∧ env' !! "FI_PROVIDER_PATH" = Some "/usr/lib/prov".
Proof. vm_compute. done. Qed.

(** C3: the XPU load step completes for every answer of the loader; when the
    library file is missing or cannot be loaded, the step prints the warning
    and leaves [my_c_library] unbound; and a module body whose package
    imports succeeded goes on to the export list and, when [dir(ccl_lib)]
    holds no empty name, completes with the bindings of [_C]. *)
Theorem load_xpu_never_raises cwd ext w :
  (∃ w' lib, load_xpu cwd ext w = (w', Ok lib))
  ∧ (hasattr_xpu ext = true → xpu_is_available ext = true →
     dlopen ext (path_join cwd "lib/liboneccl_bindings_for_pytorch_xpu.so")
       ∈ [FileMissing; Unloadable] →
     load_xpu cwd ext w = (with_stdout (stdout w ++ [xpu_warning]) w, Ok None))
  ∧ (path_join cwd "version.py" ∈ existing w →
     version_import ext = None → C_import ext = None →
     "" ∉ dir_ccl_lib ext →
     ∃ w' lib names,
       import_module cwd ext w
       = (w', Ok (Globals cwd (path_join cwd "lib/prov") lib names))).
Proof.
  split_and!.
  - rewrite load_xpu_run. destruct (_ && _); [|by eauto].
    destruct (dlopen ext _); eauto.
  - intros Hx Ha Hfail. rewrite load_xpu_run, Hx, Ha. simpl.
    destruct (dlopen ext _); [|done..].
    repeat (apply elem_of_cons in Hfail as [Hfail|Hfail]; [done|]).
    by apply elem_of_nil in Hfail.
  - intros Hver Hv HC Hdir. rewrite import_module_eval. simpl.
    rewrite bool_decide_eq_true_2, Hv, HC by done.
    destruct (ExportsSpec.all_names_ok _ Hdir) as (names & ->).
    destruct (_ && _); [|by eauto].
    destruct (dlopen ext _); eauto.
Qed.

(** The handler of [try_except] is selective: a subclass of [OSError] is
    caught, another class passes through. *)
Example try_except_subclass :
  try_except (raise (Exn FileNotFoundError "gone")) OSError (mret 0) (World ∅ ∅ [])
  = (World ∅ ∅ [], Ok 0).
Proof. reflexivity. Qed.

Example try_except_other_class :
  try_except (raise (Exn ImportError "no")) OSError (mret 0) (World ∅ ∅ [])
  = (World ∅ ∅ [], Raise (Exn ImportError "no")).
Proof. reflexivity. Qed.

Example load_xpu_missing_library :
  load_xpu "/pkg" (Externals None None true true (λ _, FileMissing) []) (World ∅ ∅ [])
  = (World ∅ ∅ [xpu_warning], Ok None).
Proof. reflexivity. Qed.

(** C10: the installation check raises [RuntimeError] with the message
    [oneccl_bindings_for_pytorch is not installed!] exactly when [version.py]
    is absent from the package directory, and then the whole module body
    ends with that exception; when the file is there the check completes and
    changes nothing. *)
Theorem version_check_spec cwd ext w :
  (snd (version_check cwd w)
     = Raise (Exn RuntimeError "oneccl_bindings_for_pytorch is not installed!")
   ↔ path_join cwd "version.py" ∉ existing w)
  ∧ (path_join cwd "version.py" ∉ existing w →
     snd (import_module cwd ext w)
     = Raise (Exn RuntimeError "oneccl_bindings_for_pytorch is not installed!"))
  ∧ (path_join cwd "version.py" ∈ existing w → version_check cwd w = (w, Ok tt)).
Proof.
  rewrite version_check_run. split_and!.
  - simpl. case_bool_decide; naive_solver.
  - intros Habs. unfold import_module, mbind, M_bind.
    rewrite env_defaults_run, version_check_run. simpl.
    by rewrite bool_decide_eq_false_2.
  - intros Hex. by rewrite bool_decide_eq_true_2.
Qed.

Example import_without_version_py :
  snd (import_module "/pkg" (Externals None None false false (λ _, FileMissing) [])
         (World ∅ ∅ []))
  = Raise not_installed.
Proof. reflexivity. Qed.

End BindingSpec.

(** ** Part II: properties of the collective engine *)

Module CollectiveSpec.
Import Collective.
Local Close Scope string_scope.
Local Open Scope list_scope.

(** *** The ring of the all-gather *)

Section Ring.
Variable world_size : nat.

Lemma newest_slot_lt r s : 0 < world_size → newest_slot world_size r s < world_size.
Proof. intros. unfold newest_slot. apply Nat.mod_upper_bound. lia. Qed.

Lemma ring_pred_lt r : 0 < world_size → ring_pred world_size r < world_size.
Proof. intros. unfold ring_pred. apply Nat.mod_upper_bound. lia. Qed.

Lemma newest_slot_0 r : r < world_size → newest_slot world_size r 0 = r.
Proof.
  intros. unfold newest_slot.
  replace (r + world_size - 0) with (r + 1 * world_size) by lia.
  rewrite Nat.Div0.mod_add. by apply Nat.mod_small.
Qed.

(** The chunk the predecessor holds newest at step [s] is the one this
    rank holds newest at step [s + 1]. *)
Lemma newest_slot_pred r s :
  r < world_size → S s < world_size →
  newest_slot world_size (ring_pred world_size r) s
  = newest_slot world_size r (S s).
Proof.
  intros Hr Hs. unfold newest_slot, ring_pred.
  destruct r as [|r].
  - replace (0 + world_size - 1) with (world_size - 1) by lia.
    rewrite (Nat.mod_small (world_size - 1)) by lia.
    replace (world_size - 1 + world_size - s)
      with ((world_size - S s) + 1 * world_size) by lia.
    rewrite Nat.Div0.mod_add. f_equal; lia.
  - replace (S r + world_size - 1) with (r + 1 * world_size) by lia.
    rewrite Nat.Div0.mod_add, (Nat.mod_small r) by lia.
    f_equal; lia.
Qed.

(** What a rank sends to its successor is what the successor receives from
    its predecessor. *)
Lemma ring_pred_succ r :
  r < world_size → ring_pred world_size (ring_succ world_size r) = r.
Proof.
  intros Hr. unfold ring_pred, ring_succ.
  destruct (decide (r + 1 = world_size)) as [Heq|Hne].
  - rewrite Heq, Nat.Div0.mod_same. simpl.
    rewrite Nat.mod_small by lia. lia.
  - rewrite (Nat.mod_small (r + 1)) by lia.
    replace (r + 1 + world_size - 1) with (r + 1 * world_size) by lia.
    rewrite Nat.Div0.mod_add. by apply Nat.mod_small.
Qed.

(** Every slot is the newest one of rank [r] at some step. *)
Lemma newest_slot_surj r i :
  r < world_size → i < world_size →
  ∃ s, s < world_size ∧ newest_slot world_size r s = i.
Proof.
  intros Hr Hi. unfold newest_slot.
  destruct (decide (i ≤ r)).
  - exists (r - i). split; [lia|].
    replace (r + world_size - (r - i)) with (i + 1 * world_size) by lia.
    rewrite Nat.Div0.mod_add. by apply Nat.mod_small.
  - exists (r + world_size - i). split; [lia|].
    replace (r + world_size - (r + world_size - i)) with i by lia.
    by apply Nat.mod_small.
Qed.
End Ring.

(** *** All-gather *)

Section AllGather.
Context {E : Type}.
Variable world_size : nat.
Variable inputs : nat → list E.

Implicit Types n : net E (list (list E)).

Abbreviation ag_after := (ag_after world_size inputs).

Lemma ag_after_S s n :
  ag_after (S s) n = ag_step world_size s (ag_after s n).
Proof. unfold ag_after. by rewrite seq_S, foldl_app. Qed.

Lemma ag_after_length s n r :
  length (mem (ag_after s n) r) = length (mem n r).
Proof.
  induction s as [|s IH].
  - unfold ag_after. simpl. case_decide; [|done]. by rewrite length_insert.
  - rewrite ag_after_S. simpl. case_decide; [|done]. by rewrite length_insert.
Qed.

(** After [s] steps rank [r] holds, in the right slots, the inputs of the
    [s + 1] ranks that end with itself on the ring. *)
Lemma ag_after_holds s n :
  (∀ r, r < world_size → length (mem n r) = world_size) →
  s < world_size →
  ∀ r k, r < world_size → k ≤ s →
    mem (ag_after s n) r !! newest_slot world_size r k
    = Some (inputs (newest_slot world_size r k)).
Proof.
  intros Hlen. induction s as [|s IH]; intros Hs r k Hr Hk.
  - assert (k = 0) as -> by lia. rewrite newest_slot_0 by done.
    unfold ag_after. simpl. rewrite decide_True by done.
    apply list_lookup_insert_eq. by rewrite Hlen.
  - rewrite ag_after_S. simpl. rewrite decide_True by done.
    assert (0 < world_size) as Hpos by lia.
    pose proof (ring_pred_lt world_size r Hpos) as Hp.
    rewrite (IH ltac:(lia) (ring_pred world_size r) s Hp ltac:(lia)). simpl.
    rewrite newest_slot_pred by done.
    destruct (decide (newest_slot world_size r k = newest_slot world_size r (S s)))
      as [->|Hne].
    + apply list_lookup_insert_eq.
      rewrite ag_after_length, Hlen by done. by apply newest_slot_lt.
    + rewrite list_lookup_insert_ne by done.
      apply IH; [lia|done|].
      destruct (decide (k = S s)) as [->|]; [done|lia].
Qed.

(** The output arrays once the call is over. *)
Lemma all_gather_outputs n r i :
  (∀ r, r < world_size → length (mem n r) = world_size) →
  r < world_size → i < world_size →
  mem (all_gather world_size inputs n) r !! i = Some (inputs i).
Proof.
  intros Hlen Hr Hi.
  destruct (newest_slot_surj world_size r i Hr Hi) as (s & Hs & <-).
  apply (ag_after_holds (world_size - 1) n Hlen); lia.
Qed.

(** A ring of one rank has no step. *)
Lemma all_gather_log n r :
  world_size = 1 →
  log (all_gather world_size inputs n) r
  = log n r ++ (if decide (r < 1) then [Return] else []).
Proof.
  intros ->. unfold all_gather. simpl.
  case_decide; [done|]. by rewrite app_nil_r.
Qed.
End AllGather.

(** *** Trees of ranks *)

Lemma tree_ind_nested (P : tree → Prop) :
  (∀ r cs, Forall P cs → P (Node r cs)) → ∀ t, P t.
Proof.
  intros Hnode. fix IH 1. intros [r cs]. apply Hnode.
  induction cs as [|c cs IHcs]; constructor; [apply IH|apply IHcs].
Qed.

Lemma root_in_ranks t : root_of t ∈ ranks_of t.
Proof. destruct t. simpl. left. Qed.

Lemma ranks_of_children cs x :
  x ∈ cs ≫= ranks_of ↔ ∃ c, c ∈ cs ∧ x ∈ ranks_of c.
Proof. rewrite list_elem_of_bind. naive_solver. Qed.

Lemma spans_lt world_size t r : spans world_size t → r ∈ ranks_of t ↔ r < world_size.
Proof.
  unfold spans. intros ->. rewrite elem_of_seq. lia.
Qed.

Lemma spans_NoDup world_size t : spans world_size t → NoDup (ranks_of t).
Proof. unfold spans. intros ->. apply NoDup_seq. Qed.

(** The only tree on one rank is the single node 0. *)
Lemma spans_1 t : spans 1 t → t = Node 0 [].
Proof.
  unfold spans. destruct t as [r cs]. simpl. intros Hp.
  apply Permutation_singleton_r in Hp.
  injection Hp as -> Hcs. f_equal.
  destruct cs as [|[r' cs'] cs]; [done|]. simpl in Hcs. done.
Qed.

(** *** Transport *)

Section Transfer.
Context {E M : Type}.
Implicit Types n : net E M.

Lemma mem_record r e n x : mem (record r e n) x = mem n x.
Proof. done. Qed.

Lemma log_record r e n x :
  log (record r e n) x = log n x ++ (if decide (x = r) then [e] else []).
Proof.
  unfold record. simpl. case_decide as Hx.
  - subst. by rewrite fn_lookup_insert.
  - rewrite fn_lookup_insert_ne by done. by rewrite app_nil_r.
Qed.

Lemma mem_transfer src dst d (deliver : list E → M → M) n x :
  mem (transfer src dst d deliver n) x
  = if decide (x = dst) then deliver d (mem n dst) else mem n x.
Proof.
  unfold transfer, store. simpl. case_decide as Hx.
  - subst. by rewrite fn_lookup_insert.
  - by rewrite fn_lookup_insert_ne.
Qed.

Lemma log_transfer src dst d (deliver : list E → M → M) n x :
  log (transfer src dst d deliver n) x
  = log n x ++ (if decide (x = src) then [SendTo dst d] else [])
            ++ (if decide (x = dst) then [RecvFrom src d] else []).
Proof.
  change (log (transfer src dst d deliver n) x)
    with (log (record dst (RecvFrom src d) (record src (SendTo dst d) n)) x).
  rewrite !log_record. by rewrite <-(assoc_L (++)).
Qed.

(** A rank forwards [d] to the roots of the trees [cs]. *)
Lemma forward_spec r d (deliver : list E → M → M) cs n x :
  NoDup (root_of <$> cs) → r ∉ root_of <$> cs →
  let n1 := foldl (λ n c, transfer r (root_of c) d deliver n) n cs in
  mem n1 x = (if decide (x ∈ root_of <$> cs)
              then deliver d (mem n x) else mem n x)
  ∧ log n1 x
    = log n x
      ++ (if decide (x = r) then (λ c, SendTo (root_of c) d) <$> cs else [])
      ++ (if decide (x ∈ root_of <$> cs) then [RecvFrom r d] else []).
Proof.
  revert n. induction cs as [|c cs IH]; intros n Hnd Hr; simpl.
  - split; [done|]. case_decide; by rewrite !app_nil_r.
  - rewrite fmap_cons in Hnd, Hr. apply NoDup_cons in Hnd as [Hc Hnd].
    apply not_elem_of_cons in Hr as [Hrc Hr].
    destruct (IH (transfer r (root_of c) d deliver n) Hnd Hr) as [-> ->].
    rewrite !mem_transfer, log_transfer.
    split.
    + repeat case_decide; set_solver.
    + repeat case_decide; simplify_eq; rewrite ?app_nil_r, <-?(assoc_L (++));
        try done; set_solver.
Qed.
End Transfer.

(** *** The way down the tree *)

Section PushDown.
Context {E M : Type}.
Variable payload : M → list E.
Variable deliver : list E → M → M.

Implicit Types n : net E M.

Abbreviation pushed := (pushed deliver).
Abbreviation pushed_all := (pushed_all deliver).
Abbreviation push_down_ok := (push_down_ok payload deliver).

Lemma push_down_children cs :
  Forall push_down_ok cs →
  ∀ n d x,
    NoDup (cs ≫= ranks_of) →
    (∀ c, c ∈ cs → payload (mem n (root_of c)) = d) →
    pushed_all d cs n (foldl (λ n c, push_down payload deliver c n) n cs) x.
Proof.
  induction 1 as [|c cs Hc _ IH]; intros n d x Hnd Hd.
  - simpl. unfold pushed_all. split_and!; [done|set_solver..].
  - rewrite bind_cons in Hnd. apply NoDup_app in Hnd as (Hndc & Hdisj & Hndcs).
    simpl. set (n1 := push_down payload deliver c n).
    destruct (Hc n x Hndc) as (Hout & Hroot & Hin). fold n1 in Hout, Hroot, Hin.
    rewrite (Hd c) in Hin by left.
    assert (∀ c', c' ∈ cs → payload (mem n1 (root_of c')) = d) as Hd1.
    { intros c' Hc'. destruct (Hc n (root_of c') Hndc) as (Hout1 & _).
      fold n1 in Hout1. destruct Hout1 as [-> _].
      - intros Hin'. apply (Hdisj _ Hin'). apply ranks_of_children.
        exists c'. split; [done|apply root_in_ranks].
      - apply Hd. by right. }
    destruct (IH n1 d x Hndcs Hd1) as (Hout' & Hroot' & Hin').
    assert (∀ c', c' ∈ cs → root_of c' ∈ cs ≫= ranks_of) as Hroots.
    { intros c' Hc'. apply ranks_of_children. exists c'.
      split; [done|apply root_in_ranks]. }
    unfold pushed_all. rewrite bind_cons, fmap_cons.
    split_and!.
    + intros Hx. apply not_elem_of_app in Hx as [Hx1 Hx2].
      destruct (Hout Hx1) as [<- <-]. by apply Hout'.
    + intros Hx. apply elem_of_cons in Hx as [->|Hx].
      * destruct (Hroot eq_refl) as [<- Hlog].
        destruct Hout' as [-> ->]; [|done].
        intros Hin2. apply (Hdisj (root_of c)); [apply root_in_ranks|done].
      * assert (x ∈ cs ≫= ranks_of) as Hx2.
        { apply list_elem_of_fmap in Hx as (c' & -> & Hc'). by apply Hroots. }
        destruct Hout as [<- <-]; [|by apply Hroot'].
        intros Hx1. by apply (Hdisj x).
    + intros Hx Hnr. apply not_elem_of_cons in Hnr as [Hnc Hnr].
      apply elem_of_app in Hx as [Hx|Hx].
      * destruct (Hin Hx Hnc) as [<- Hlog].
        destruct Hout' as [-> ->]; [|done].
        intros Hx2. by apply (Hdisj x).
      * destruct Hout as [<- <-]; [|by apply Hin'].
        intros Hx1. by apply (Hdisj x).
Qed.

Hypothesis payload_deliver : ∀ d m, payload (deliver d m) = d.

Lemma push_down_spec t : push_down_ok t.
Proof.
  induction t as [r cs IH] using tree_ind_nested.
  intros n x Hnd. simpl in Hnd. apply NoDup_cons in Hnd as [Hr Hnd].
  simpl. set (d := payload (mem n r)).
  set (n1 := foldl (λ n c, transfer r (root_of c) d deliver n) n cs).
  set (n2 := record r Return n1).
  assert (∀ c, c ∈ cs → root_of c ∈ cs ≫= ranks_of) as Hroots.
  { intros c Hc. apply ranks_of_children. exists c.
    split; [done|apply root_in_ranks]. }
  assert (NoDup (root_of <$> cs)) as Hndr.
  { clear -Hnd. induction cs as [|c cs IHcs]; [constructor|].
    rewrite bind_cons in Hnd. apply NoDup_app in Hnd as (_ & Hdisj & Hnd).
    rewrite fmap_cons. apply NoDup_cons. split; [|by apply IHcs].
    intros Hin. apply list_elem_of_fmap in Hin as (c' & Heq & Hc').
    apply (Hdisj (root_of c)); [apply root_in_ranks|].
    apply ranks_of_children. exists c'. split; [done|].
    rewrite Heq. apply root_in_ranks. }
  assert (r ∉ root_of <$> cs) as Hrr.
  { intros Hin. apply list_elem_of_fmap in Hin as (c & -> & Hc).
    by apply Hr, Hroots. }
  assert (∀ y, mem n2 y = (if decide (y ∈ root_of <$> cs)
                           then deliver d (mem n y) else mem n y)
               ∧ log n2 y
                 = log n y
                   ++ (if decide (y = r)
                       then ((λ c, SendTo (root_of c) d) <$> cs) ++ [Return]
                       else [])
                   ++ (if decide (y ∈ root_of <$> cs)
                       then [RecvFrom r d] else [])) as Hn2.
  { intros y. unfold n2. rewrite mem_record, log_record.
    pose proof (forward_spec r d deliver cs n y Hndr Hrr) as Hf.
    simpl in Hf. fold n1 in Hf. destruct Hf as [-> ->].
    split; [done|]. repeat case_decide; simplify_eq;
      rewrite ?app_nil_r, <-?(assoc_L (++)); done. }
  assert (∀ c, c ∈ cs → payload (mem n2 (root_of c)) = d) as Hd.
  { intros c Hc. destruct (Hn2 (root_of c)) as [-> _].
    rewrite decide_True by by apply list_elem_of_fmap_2.
    apply payload_deliver. }
  destruct (push_down_children cs IH n2 d x Hnd Hd) as (Hout & Hroot & Hin).
  destruct (Hn2 x) as [Hm2 Hl2].
  unfold Collective.pushed. simpl. split_and!.
  - intros Hx. apply not_elem_of_cons in Hx as [Hxr Hx].
    destruct (Hout Hx) as [-> ->]. rewrite Hm2, Hl2.
    assert (x ∉ root_of <$> cs) as Hxc.
    { intros Hxc. apply list_elem_of_fmap in Hxc as (c & -> & Hc).
      by apply Hx, Hroots. }
    rewrite !(decide_False _ _ Hxc), (decide_False _ _ Hxr).
    by rewrite !app_nil_r.
  - intros ->. destruct (Hout Hr) as [-> ->]. rewrite Hm2, Hl2.
    rewrite !(decide_False _ _ Hrr), (decide_True _ _ eq_refl).
    split; [done|]. rewrite app_nil_r.
    eexists. split; [|done].
    apply Forall_fmap, Forall_forall. done.
  - intros Hx Hxr. apply elem_of_cons in Hx as [?|Hx]; [done|].
    destruct (decide (x ∈ root_of <$> cs)) as [Hxc|Hxc].
    + destruct (Hroot Hxc) as [-> (sends & Hsends & ->)].
      rewrite Hm2, Hl2, (decide_False _ _ Hxr).
      split; [done|]. simpl.
      exists r, sends. split; [done|]. by rewrite <-(assoc_L (++)).
    + destruct (Hin Hx Hxc) as [-> Hlog]. rewrite Hm2, Hl2 in *.
      rewrite (decide_False _ _ Hxr) in *.
      simpl in Hlog. rewrite app_nil_r in Hlog. done.
Qed.
End PushDown.

(** *** The way up the tree *)

Section PullUp.
Context {E M : Type}.
Variable op : E → E → E.
Variable arrival : nat → list (nat * list E) → list (nat * list E).

Implicit Types n : net E M.

Lemma mem_finish ret r n x : mem (finish ret r n) x = mem n x.
Proof. by destruct ret. Qed.

(** No buffer is written on the way up. *)
Lemma pull_up_mem ret inputs t n x :
  mem (pull_up op arrival ret inputs t n) x = mem n x.
Proof.
  revert n. induction t as [r cs IH] using tree_ind_nested. simpl.
  induction IH as [|c cs Hc _ IHcs]; intros n; simpl; [done|].
  rewrite IHcs, mem_finish, mem_transfer, Hc. by case_decide; subst.
Qed.

End PullUp.

(** *** The reduction order *)

Section Reduction.
Context {E : Type}.
Variable op : E → E → E.

Implicit Types arrival : nat → list (nat * list E) → list (nat * list E).

(** The inbox of a rank gives back the partial results of its children,
    whatever the order of arrival. *)
Lemma inbox_lookup (msgs : list (nat * list E)) :
  NoDup msgs.*1 →
  omap (λ c, (list_to_map msgs : gmap nat (list E)) !! c) msgs.*1 = msgs.*2.
Proof.
  induction msgs as [|[k v] msgs IH]; intros Hnd; [done|].
  rewrite !fmap_cons in *. cbn [fst snd] in *.
  apply NoDup_cons in Hnd as [Hk Hnd].
  rewrite list_to_map_cons. cbn [omap list_omap].
  rewrite lookup_insert_eq. f_equal. rewrite <-(IH Hnd).
  apply list_omap_ext, Forall_Forall2_diag, Forall_forall.
  intros c Hc. rewrite lookup_insert_ne; [done|]. by intros ->.
Qed.

Lemma inbox_sorted arrival r (msgs : list (nat * list E)) :
  arrival r msgs ≡ₚ msgs → NoDup msgs.*1 →
  omap (λ c, (list_to_map (arrival r msgs) : gmap nat (list E)) !! c)
    (merge_sort (≤) msgs.*1)
  = omap (λ c, (list_to_map msgs : gmap nat (list E)) !! c)
      (merge_sort (≤) msgs.*1).
Proof.
  intros Hperm Hnd. f_equal.
  rewrite (list_to_map_proper (arrival r msgs) msgs); [done| |done].
  by rewrite Hperm.
Qed.
Lemma msgs_keys {B} (f : tree → B) (cs : list tree) :
  ((λ c, (root_of c, f c)) <$> cs).*1 = root_of <$> cs.
Proof. by rewrite <-list_fmap_compose. Qed.

Lemma msgs_values {B} (f : tree → B) (cs : list tree) :
  ((λ c, (root_of c, f c)) <$> cs).*2 = f <$> cs.
Proof. by rewrite <-list_fmap_compose. Qed.

Lemma children_NoDup r cs c :
  NoDup (ranks_of (Node r cs)) → c ∈ cs → NoDup (ranks_of c).
Proof.
  simpl. intros [_ Hnd]%NoDup_cons Hc.
  apply list_elem_of_split in Hc as (l1 & l2 & ->).
  rewrite bind_app, bind_cons in Hnd.
  apply NoDup_app in Hnd as (_ & _ & Hnd). by apply NoDup_app in Hnd as (? & _).
Qed.

Lemma children_roots_NoDup r cs :
  NoDup (ranks_of (Node r cs)) → NoDup (root_of <$> cs).
Proof.
  simpl. intros [_ Hnd]%NoDup_cons.
  induction cs as [|c cs IHcs]; [constructor|].
  rewrite bind_cons in Hnd. apply NoDup_app in Hnd as (_ & Hdisj & Hnd).
  rewrite fmap_cons. apply NoDup_cons. split; [|by apply IHcs].
  intros Hin. apply list_elem_of_fmap in Hin as (c' & Heq & Hc').
  apply (Hdisj (root_of c)); [apply root_in_ranks|].
  apply ranks_of_children. exists c'. split; [done|].
  rewrite Heq. apply root_in_ranks.
Qed.

(** The partial result of a subtree does not depend on the order in which
    the messages of the children arrive. *)
Lemma partial_arrival arrival inputs t :
  (∀ r msgs, arrival r msgs ≡ₚ msgs) →
  NoDup (ranks_of t) →
  partial op arrival inputs t = partial op in_order inputs t.
Proof.
  intros Harr. induction t as [r cs IH] using tree_ind_nested. intros Hnd.
  cbn [partial].
  assert ((λ c, (root_of c, partial op arrival inputs c)) <$> cs
          = (λ c, (root_of c, partial op in_order inputs c)) <$> cs) as ->.
  { apply list_fmap_ext. intros i c Hc. f_equal.
    apply list_elem_of_lookup_2 in Hc.
    rewrite Forall_forall in IH. apply IH; [done|].
    by eapply children_NoDup. }
  f_equal. unfold in_order at 2.
  rewrite <-(msgs_keys (partial op in_order inputs) cs).
  apply inbox_sorted; [done|].
  rewrite msgs_keys. by eapply children_roots_NoDup.
Qed.

(** **** Associative and commutative operators *)

Context `{!Assoc (=) op, !Comm (=) op}.

#[local] Instance zip_with_assoc : Assoc (=) (zip_with op).
Proof.
  intros a. induction a as [|x a IH]; intros [|y b] [|z c]; simpl; try done.
  by rewrite (assoc_L op), IH.
Qed.

#[local] Instance zip_with_comm : Comm (=) (zip_with op).
Proof.
  intros a. induction a as [|x a IH]; intros [|y b]; simpl; try done.
  by rewrite (comm_L op), IH.
Qed.

#[local] Instance oplus_assoc : Assoc (=) (oplus op).
Proof.
  intros [a|] [b|] [c|]; unfold oplus; simpl; try done.
  by rewrite (assoc_L (zip_with op)).
Qed.

#[local] Instance oplus_comm : Comm (=) (oplus op).
Proof.
  intros [a|] [b|]; unfold oplus; simpl; try done.
  by rewrite (comm_L (zip_with op)).
Qed.

Lemma combination_app l1 l2 :
  combination op (l1 ++ l2) = oplus op (combination op l1) (combination op l2).
Proof.
  unfold combination. rewrite fmap_app, foldr_app.
  generalize (foldr (oplus op) None (Some <$> l2)). intros b.
  induction l1 as [|x l1 IH].
  - by destruct b.
  - rewrite fmap_cons. cbn [fold_right].
    by rewrite IH, (assoc_L (oplus op)).
Qed.

Lemma combination_perm l1 l2 :
  l1 ≡ₚ l2 → combination op l1 = combination op l2.
Proof.
  intros Hperm. unfold combination.
  apply (foldr_permutation_proper' (=) (oplus op) None). by rewrite Hperm.
Qed.

Lemma foldl_combination p ps :
  Some (foldl (zip_with op) p ps) = combination op (p :: ps).
Proof.
  revert p. induction ps as [|q ps IH]; intros p; [done|].
  cbn [foldl]. rewrite IH. unfold combination.
  rewrite !fmap_cons. cbn [fold_right].
  by rewrite (assoc_L (oplus op)).
Qed.

Lemma combine_combination parts own :
  Some (combine op parts own) = combination op (parts ++ [own]).
Proof.
  destruct parts as [|p ps]; [done|].
  rewrite combination_app. cbn [combine].
  by rewrite <-foldl_combination.
Qed.

Lemma rank_order_combination world_size inputs :
  0 < world_size →
  Some (rank_order op world_size inputs)
  = combination op (inputs <$> seq 0 world_size).
Proof.
  intros Hpos. unfold rank_order.
  destruct world_size as [|ws]; [lia|].
  cbn [seq fmap list_fmap]. apply foldl_combination.
Qed.

(** The partial result of a subtree is the combination of the inputs of its
    ranks. *)
Lemma partial_combination inputs t :
  NoDup (ranks_of t) →
  Some (partial op in_order inputs t) = combination op (inputs <$> ranks_of t).
Proof.
  induction t as [r cs IH] using tree_ind_nested. intros Hnd.
  cbn [partial]. unfold in_order at 1.
  rewrite combine_combination, combination_app.
  set (msgs := (λ c, (root_of c, partial op in_order inputs c)) <$> cs).
  assert (omap (λ c, (list_to_map msgs : gmap nat (list E)) !! c)
            (merge_sort (≤) (root_of <$> cs))
          ≡ₚ partial op in_order inputs <$> cs) as Hparts.
  { rewrite merge_sort_Permutation.
    rewrite <-(msgs_keys (partial op in_order inputs) cs). fold msgs.
    rewrite inbox_lookup; [by unfold msgs; rewrite msgs_values|].
    unfold msgs. rewrite msgs_keys. by eapply children_roots_NoDup. }
  rewrite (combination_perm _ _ Hparts).
  assert (combination op (partial op in_order inputs <$> cs)
          = combination op (inputs <$> cs ≫= ranks_of)) as ->.
  { assert (∀ c, c ∈ cs → NoDup (ranks_of c)) as Hcs
      by (intros c Hc; by eapply children_NoDup).
    clear Hnd Hparts msgs.
    induction IH as [|c cs Hc _ IHcs]; [done|].
    rewrite fmap_cons, bind_cons, fmap_app, combination_app.
    rewrite <-Hc, <-IHcs; [done| |]; intros; apply Hcs; by constructor. }
  cbn [ranks_of]. rewrite fmap_cons.
  change (inputs r :: (inputs <$> cs ≫= ranks_of))
    with ([inputs r] ++ (inputs <$> cs ≫= ranks_of)).
  rewrite combination_app. apply (comm_L (oplus op)).
Qed.

(** On a tree that spans the group, the reduction is the one in rank
    order. *)
Lemma partial_rank_order world_size inputs t :
  spans world_size t →
  partial op in_order inputs t = rank_order op world_size inputs.
Proof.
  intros Hspans.
  assert (0 < world_size) as Hpos.
  { pose proof (root_in_ranks t) as Hroot.
    apply (spans_lt _ _ _ Hspans) in Hroot. lia. }
  apply (inj Some).
  rewrite partial_combination by by eapply spans_NoDup.
  rewrite rank_order_combination by done.
  apply combination_perm. unfold spans in Hspans. by rewrite Hspans.
Qed.
End Reduction.

(** *** The collectives *)

Lemma star_spans world_size root :
  root < world_size →
  spans world_size (star world_size root) ∧ root_of (star world_size root) = root.
Proof.
  intros Hroot. split; [|done]. unfold spans, star. cbn [ranks_of].
  assert (∀ l : list nat, ((λ r, Node r []) <$> l) ≫= ranks_of = l) as ->.
  { induction l as [|x l IH]; [done|].
    rewrite fmap_cons, bind_cons, IH. done. }
  apply NoDup_Permutation.
  - apply NoDup_cons. split.
    + rewrite list_elem_of_filter. naive_solver.
    + apply NoDup_filter, NoDup_seq.
  - apply NoDup_seq.
  - intros x. rewrite elem_of_cons, list_elem_of_filter, !elem_of_seq.
    destruct (decide (x = root)); naive_solver lia.
Qed.

Example binomial_4 : binomial 4 0 = Node 0 [Node 1 [Node 3 []]; Node 2 []].
Proof. reflexivity. Qed.

Example binomial_4_spans : spans 4 (binomial 4 0).
Proof. compute_done. Qed.

Example binomial_12_spans : spans 12 (binomial 12 5).
Proof. compute_done. Qed.

(** C4: after an all-gather on [world_size] ranks, whose output arrays have
    [world_size] slots, the output array of every rank holds at every index
    [i] the input of rank [i]. *)
Theorem all_gather_correct {E} (world_size : nat) (inputs : nat → list E)
    (n : net E (list (list E))) :
  (∀ r, r < world_size → length (mem n r) = world_size) →
  ∀ r i, r < world_size → i < world_size →
    mem (all_gather world_size inputs n) r !! i = Some (inputs i).
Proof. intros Hlen r i Hr Hi. by apply all_gather_outputs. Qed.

Lemma all_gather_correct_witness :
  mem (all_gather 3 (λ r, [r]) (fresh (λ _, [[7]; [8]; [9]]))) 2 !! 0
  = Some [0].
Proof.
  apply (all_gather_correct 3 (λ r, [r]) (fresh (λ _, [[7]; [8]; [9]])));
    [intros; reflexivity|lia|lia].
Defined.

(** The scenario of the specification: three ranks gather their rank ids. *)
Example all_gather_rank_ids :
  let n' := all_gather 3 (λ r, [r]) (fresh (λ _, [[7]; [8]; [9]])) in
  mem n' 0 = [[0]; [1]; [2]] ∧ mem n' 1 = [[0]; [1]; [2]]
  ∧ mem n' 2 = [[0]; [1]; [2]].
Proof. by vm_compute. Qed.

(** C5: after a broadcast on a tree that spans [world_size ≥ 2] ranks, the
    buffer of every rank is the buffer the root had before the call, and
    what the call adds to the events of a rank other than the root starts
    with the receipt of that buffer and ends with the return. *)
Theorem broadcast_correct {E} (world_size : nat) (t : tree) (n : net E (list E)) :
  2 ≤ world_size → spans world_size t →
  ∀ r, r < world_size →
    mem (broadcast t n) r = mem n (root_of t)
    ∧ (r ≠ root_of t →
       returns_after_recv (mem n (root_of t)) (log n r) (log (broadcast t n) r)).
Proof.
  intros _ Hspans r Hr.
  destruct (push_down_spec id (λ d _, d) (λ _ _, eq_refl) t n r
              (spans_NoDup _ _ Hspans)) as (_ & Hroot & Hin).
  apply (spans_lt _ _ _ Hspans) in Hr.
  destruct (decide (r = root_of t)) as [->|Hne].
  - split; [|done]. by destruct Hroot.
  - destruct (Hin Hr Hne) as [Hmem Hlog]. done.
Qed.

Lemma broadcast_correct_witness :
  let n := fresh (λ r, [r]) in
  mem (broadcast (binomial 4 2) n) 1 = [2]
  ∧ (1 ≠ 2 → returns_after_recv [2] [] (log (broadcast (binomial 4 2) n) 1)).
Proof.
  apply (broadcast_correct 4 (binomial 4 2) (fresh (λ r, [r])));
    [lia|compute_done|lia].
Defined.

Example broadcast_from_rank_2 :
  let n' := broadcast (binomial 4 2) (fresh (λ r, [r])) in
  (mem n' 0, mem n' 1, mem n' 2, mem n' 3) = ([2], [2], [2], [2])
  ∧ log n' 3 = [RecvFrom 2 [2]; SendTo 1 [2]; Return]
  ∧ log n' 1 = [RecvFrom 3 [2]; Return].
Proof. by vm_compute. Qed.

Section ReduceSpec.
Context {E : Type}.
Variable op : E → E → E.

Implicit Types n : net E (io E).
Implicit Types arrival : nat → list (nat * list E) → list (nat * list E).

(** The memory a reduce leaves behind. *)
Lemma reduce_mem arrival t n x :
  mem (reduce op arrival t n) x
  = if decide (x = root_of t)
    then IO (input (mem n x)) (partial op arrival (λ r, input (mem n r)) t)
    else mem n x.
Proof.
  unfold reduce. rewrite mem_record. unfold store. simpl.
  case_decide as Hx.
  - subst. by rewrite fn_lookup_insert, pull_up_mem.
  - by rewrite fn_lookup_insert_ne, pull_up_mem.
Qed.

(** The memory an all-reduce leaves behind. *)
Lemma all_reduce_mem arrival t n x :
  NoDup (ranks_of t) →
  mem (all_reduce op arrival t n) x
  = if decide (x ∈ ranks_of t)
    then IO (input (mem n x)) (partial op arrival (λ r, input (mem n r)) t)
    else mem n x.
Proof.
  intros Hnd. unfold all_reduce.
  set (inputs := λ r, input (mem n r)).
  set (n1 := pull_up op arrival false inputs t n).
  set (n2 := store (root_of t) (set_output (partial op arrival inputs t)
                                  (mem n1 (root_of t))) n1).
  assert (∀ y, mem n2 y = if decide (y = root_of t)
                          then IO (input (mem n y)) (partial op arrival inputs t)
                          else mem n y) as Hn2.
  { intros y. unfold n2, store, n1. simpl. case_decide as Hy.
    - subst. by rewrite fn_lookup_insert, pull_up_mem.
    - by rewrite fn_lookup_insert_ne, pull_up_mem. }
  destruct (push_down_spec output set_output (λ _ _, eq_refl) t n2 x Hnd)
    as (Hout & Hroot & Hin).
  rewrite (Hn2 (root_of t)), decide_True in Hin by done. cbn [output] in Hin.
  case_decide as Hx.
  - destruct (decide (x = root_of t)) as [->|Hne].
    + destruct (Hroot eq_refl) as [-> _]. by rewrite Hn2, decide_True.
    + destruct (Hin Hx Hne) as [-> _]. by rewrite Hn2, decide_False.
  - destruct (Hout Hx) as [-> _]. rewrite Hn2, decide_False; [done|].
    intros ->. apply Hx, root_in_ranks.
Qed.
End ReduceSpec.

(** C6: a reduce writes the output buffer of the root and nothing else: the
    memory of every other rank, and the input of the root, are as before the
    call; the root's output is the combination of the inputs of all ranks in
    the order of the tree, which for an associative and commutative operator
    is their combination in rank order. *)
Theorem reduce_root_only {E} (op : E → E → E)
    (arrival : nat → list (nat * list E) → list (nat * list E))
    (world_size : nat) (t : tree) (n : net E (io E)) :
  (∀ r msgs, arrival r msgs ≡ₚ msgs) →
  spans world_size t →
  let inputs r := input (mem n r) in
  let n' := reduce op arrival t n in
  (∀ r, r ≠ root_of t → mem n' r = mem n r)
  ∧ input (mem n' (root_of t)) = input (mem n (root_of t))
  ∧ output (mem n' (root_of t)) = partial op in_order inputs t
  ∧ (Assoc (=) op → Comm (=) op →
     output (mem n' (root_of t)) = rank_order op world_size inputs).
Proof.
  intros Harr Hspans inputs n'. unfold n'.
  pose proof (spans_NoDup _ _ Hspans) as Hnd.
  split_and!.
  - intros r Hr. by rewrite reduce_mem, decide_False.
  - by rewrite reduce_mem, decide_True.
  - rewrite reduce_mem, decide_True by done. simpl.
    by apply partial_arrival.
  - intros Hassoc Hcomm. rewrite reduce_mem, decide_True by done. simpl.
    rewrite partial_arrival by done. by apply partial_rank_order.
Qed.

Lemma reduce_root_only_witness :
  let n := fresh (λ r, IO [Z.of_nat r + 1]%Z [-1]%Z) in
  let n' := reduce Z.add in_order (binomial 4 0) n in
  (∀ r, r ≠ 0 → mem n' r = mem n r)
  ∧ input (mem n' 0) = [1%Z]
  ∧ output (mem n' 0) = [10%Z]
  ∧ (Assoc (=) Z.add → Comm (=) Z.add → output (mem n' 0) = [10%Z]).
Proof.
  apply (reduce_root_only Z.add in_order 4 (binomial 4 0)
           (fresh (λ r, IO [Z.of_nat r + 1]%Z [-1]%Z)));
    [intros; reflexivity|compute_done].
Defined.

(** The scenario of the specification: four ranks, sum, inputs 1, 2, 3, 4. *)
Example reduce_sum_4 :
  let n' := reduce Z.add in_order (binomial 4 0)
              (fresh (λ r, IO [Z.of_nat r + 1]%Z [-1]%Z)) in
  mem n' 0 = IO [1%Z] [10%Z] ∧ mem n' 1 = IO [2%Z] [-1]%Z
  ∧ mem n' 2 = IO [3%Z] [-1]%Z ∧ mem n' 3 = IO [4%Z] [-1]%Z.
Proof. by vm_compute. Qed.

(** C7: on a fixed tree that spans the group, a run of all-reduce or of
    reduce leaves the same memory at every rank whatever the order in which
    the partial results arrive, and after an all-reduce the output of every
    rank is the one result of the reduction in the order of the tree. *)
Theorem reduction_deterministic {E} (op : E → E → E)
    (arrival1 arrival2 : nat → list (nat * list E) → list (nat * list E))
    (world_size : nat) (t : tree) (n : net E (io E)) :
  (∀ r msgs, arrival1 r msgs ≡ₚ msgs) →
  (∀ r msgs, arrival2 r msgs ≡ₚ msgs) →
  spans world_size t →
  let inputs r := input (mem n r) in
  (∀ r, mem (all_reduce op arrival1 t n) r = mem (all_reduce op arrival2 t n) r)
  ∧ (∀ r, mem (reduce op arrival1 t n) r = mem (reduce op arrival2 t n) r)
  ∧ (∀ r, r < world_size →
       output (mem (all_reduce op arrival1 t n) r) = partial op in_order inputs t).
Proof.
  intros Harr1 Harr2 Hspans inputs.
  pose proof (spans_NoDup _ _ Hspans) as Hnd.
  split_and!.
  - intros r. rewrite !all_reduce_mem by done.
    by rewrite !(partial_arrival op _ _ _ Harr1), !(partial_arrival op _ _ _ Harr2).
  - intros r. rewrite !reduce_mem.
    by rewrite !(partial_arrival op _ _ _ Harr1), !(partial_arrival op _ _ _ Harr2).
  - intros r Hr. apply (spans_lt _ _ _ Hspans) in Hr.
    rewrite all_reduce_mem, decide_True by done. simpl.
    by apply partial_arrival.
Qed.

Lemma reduction_deterministic_witness :
  let n := fresh (λ r, IO [Z.of_nat r + 1]%Z [-1]%Z) in
  (∀ r, mem (all_reduce Z.sub in_order (binomial 4 0) n) r
        = mem (all_reduce Z.sub (λ _, reverse) (binomial 4 0) n) r)
  ∧ (∀ r, mem (reduce Z.sub in_order (binomial 4 0) n) r
          = mem (reduce Z.sub (λ _, reverse) (binomial 4 0) n) r)
  ∧ (∀ r, r < 4 →
       output (mem (all_reduce Z.sub in_order (binomial 4 0) n) r) = [-2]%Z).
Proof.
  apply (reduction_deterministic Z.sub in_order (λ _, reverse) 4 (binomial 4 0)
           (fresh (λ r, IO [Z.of_nat r + 1]%Z [-1]%Z)));
    [intros; reflexivity|intros; apply reverse_Permutation|compute_done].
Defined.

(** With an operator that is not associative the order of the tree is not
    the rank order: on the binomial tree of four ranks, subtraction of the
    inputs 1, 2, 3, 4 gives [(4 - 2 - 3) - 1 = -2] and not
    [((1 - 2) - 3) - 4 = -8]. *)
Example tree_order_is_not_rank_order :
  let inputs r := [Z.of_nat r + 1]%Z in
  partial Z.sub in_order inputs (binomial 4 0) = [-2]%Z
  ∧ rank_order Z.sub 4 inputs = [-8]%Z.
Proof. by vm_compute. Qed.

Lemma local_only_return {E} (before : list (event E)) :
  local_only before (before ++ [Return]).
Proof.
  split; [done|]. unfold transport_calls.
  by rewrite filter_app, length_app, Nat.add_0_r.
Qed.

(** C8: in a group of one rank, broadcast leaves the buffer as it is, reduce
    and all-reduce copy the input to the output, all-gather puts the input in
    the only slot of the output array, and each of these calls adds the
    return and no Transport event to the events of the rank. *)
Theorem single_rank_no_transport {E} (op : E → E → E)
    (arrival : nat → list (nat * list E) → list (nat * list E)) (t : tree) :
  spans 1 t →
  (∀ n : net E (list E),
     mem (broadcast t n) 0 = mem n 0
     ∧ local_only (log n 0) (log (broadcast t n) 0))
  ∧ (∀ n : net E (io E),
       mem (reduce op arrival t n) 0 = IO (input (mem n 0)) (input (mem n 0))
       ∧ local_only (log n 0) (log (reduce op arrival t n) 0))
  ∧ (∀ n : net E (io E),
       mem (all_reduce op arrival t n) 0 = IO (input (mem n 0)) (input (mem n 0))
       ∧ local_only (log n 0) (log (all_reduce op arrival t n) 0))
  ∧ (∀ inputs (n : net E (list (list E))),
       length (mem n 0) = 1 →
       mem (all_gather 1 inputs n) 0 = [inputs 0]
       ∧ local_only (log n 0) (log (all_gather 1 inputs n) 0)).
Proof.
  intros ->%spans_1. split_and!.
  - intros n. split; [done|]. unfold broadcast. simpl.
    rewrite fn_lookup_insert. apply local_only_return.
  - intros n. split.
    + by rewrite reduce_mem.
    + unfold reduce. simpl. rewrite fn_lookup_insert. apply local_only_return.
  - intros n. unfold all_reduce. simpl. rewrite !fn_lookup_insert.
    split; [done|apply local_only_return].
  - intros inputs n Hlen. split.
    + simpl. destruct (mem n 0) as [|x [|? ?]]; done.
    + rewrite all_gather_log by done. apply local_only_return.
Qed.

Lemma single_rank_no_transport_witness :
  (∀ n : net Z (list Z),
     mem (broadcast (Node 0 []) n) 0 = mem n 0
     ∧ local_only (log n 0) (log (broadcast (Node 0 []) n) 0))
  ∧ (∀ n : net Z (io Z),
       mem (reduce Z.add in_order (Node 0 []) n) 0
       = IO (input (mem n 0)) (input (mem n 0))
       ∧ local_only (log n 0) (log (reduce Z.add in_order (Node 0 []) n) 0))
  ∧ (∀ n : net Z (io Z),
       mem (all_reduce Z.add in_order (Node 0 []) n) 0
       = IO (input (mem n 0)) (input (mem n 0))
       ∧ local_only (log n 0) (log (all_reduce Z.add in_order (Node 0 []) n) 0))
  ∧ (∀ inputs (n : net Z (list (list Z))),
       length (mem n 0) = 1 →
       mem (all_gather 1 inputs n) 0 = [inputs 0]
       ∧ local_only (log n 0) (log (all_gather 1 inputs n) 0)).
Proof.
  apply (single_rank_no_transport Z.add in_order (Node 0 [])). compute_done.
Defined.

Example single_rank_calls :
  transport_calls (log (broadcast (Node 0 []) (fresh (λ _, [5%Z]))) 0) = 0
  ∧ transport_calls
      (log (all_reduce Z.add in_order (Node 0 []) (fresh (λ _, IO [5%Z] [0%Z]))) 0)
    = 0
  ∧ transport_calls
      (log (all_gather 1 (λ _, [5%Z]) (fresh (λ _, [[0%Z]]))) 0) = 0
  ∧ transport_calls
      (log (reduce Z.add in_order (binomial 4 0)
              (fresh (λ r, IO [Z.of_nat r] [0%Z]))) 1) = 2.
Proof. by vm_compute. Qed.

End CollectiveSpec.


(** ** Part I, continued: further properties of the binding module *)

Module BindingExtra.
Import Binding.
Local Open Scope list_scope.

(** **** [set_env_default] *)

Lemma set_env_default_id (env : gmap string string) key value x :
  env !! key = Some x → set_env_default env key value = env.
Proof.
  intros Hset. unfold set_env_default. rewrite Hset. simpl.
  by apply insert_id.
Qed.

(** X1: on an environment in which [key] is set, [set_env_default] changes
    nothing at all: the environment afterwards is the one before. *)
Theorem set_env_default_set_noop (env : gmap string string) key value x :
  env !! key = Some x → set_env_default env key value = env.
Proof. apply set_env_default_id. Qed.

Lemma set_env_default_set_noop_witness :
  set_env_default {[ "CCL_ROOT" := "/usr/ccl" ]} "CCL_ROOT" "/pkg"
  = {[ "CCL_ROOT" := "/usr/ccl" ]}.
Proof.
  apply (set_env_default_set_noop _ "CCL_ROOT" "/pkg" "/usr/ccl").
  reflexivity.
Defined.

(** X2: on [os.environ] the first default given for a key wins: after a
    call that returned, the key holds what the plain [set_env_default]
    gives it, and a second call for the same key, with whatever value,
    returns as well and changes nothing. *)
Theorem set_env_default_first_wins (env env1 : gmap string string) key v1 v2 :
  set_env_default_environ env key v1 = Some env1 →
  env1 = set_env_default env key v1
  ∧ set_env_default_environ env1 key v2 = Some env1.
Proof.
  unfold set_env_default_environ, set_env_default. simpl.
  destruct (environ_accepts key (default v1 (env !! key))) eqn:Hacc; [|done].
  intros [= <-]. split; [done|].
  rewrite lookup_insert_eq. simpl. rewrite Hacc.
  by rewrite insert_insert_eq.
Qed.

Lemma set_env_default_first_wins_witness :
  <["CCL_ROOT" := "/pkg"]> (∅ : gmap string string)
  = set_env_default ∅ "CCL_ROOT" "/pkg"
  ∧ set_env_default_environ (<["CCL_ROOT" := "/pkg"]> ∅) "CCL_ROOT" "/other"
    = Some (<["CCL_ROOT" := "/pkg"]> ∅).
Proof.
  apply (set_env_default_first_wins ∅ _ "CCL_ROOT" "/pkg" "/other").
  reflexivity.
Defined.

(** The assignment is refused for an empty name, so the call raises. *)
Example set_env_default_environ_empty_name :
  set_env_default_environ ∅ "" "/pkg" = None.
Proof. reflexivity. Qed.

(** **** The module body *)

(** X3: the module body completes exactly when [version.py] is in the
    package directory, both package imports succeed and [dir(ccl_lib)] holds
    no empty name; neither [torch] nor the loader can make it fail. *)
Theorem import_module_succeeds_iff cwd ext w :
  (∃ g, snd (import_module cwd ext w) = Ok g) ↔
  path_join cwd "version.py" ∈ existing w
  ∧ version_import ext = None ∧ C_import ext = None
  ∧ "" ∉ dir_ccl_lib ext.
Proof.
  rewrite BindingSpec.import_module_eval. simpl. case_bool_decide as Hv.
  - destruct (version_import ext) as [e|]; [naive_solver|].
    destruct (C_import ext) as [e|]; [naive_solver|].
    destruct (decide ("" ∈ dir_ccl_lib ext)) as [Hin|Hne].
    + rewrite (ExportsSpec.all_names_empty_name _ Hin).
      split; [|naive_solver]. intros [g Hg].
      destruct (_ && _); [|done]. by destruct (dlopen ext _).
    + destruct (ExportsSpec.all_names_ok _ Hne) as (names & ->).
      split; [done|]. intros _.
      destruct (_ && _); [|by eauto].
      destruct (dlopen ext _); eauto.
  - naive_solver.
Qed.

(** X4: when the module body raises, the exception is that of the first
    step that fails, in source order: the installation check, the import of
    [version], the import of [_C], before any of which nothing has been
    printed, or else the [IndexError] of an empty name in [dir(ccl_lib)],
    after the XPU step. *)
Theorem import_module_failure_order cwd ext w e :
  snd (import_module cwd ext w) = Raise e →
  ((((path_join cwd "version.py" ∉ existing w) ∧ e = not_installed)
    ∨ (path_join cwd "version.py" ∈ existing w ∧ version_import ext = Some e)
    ∨ (path_join cwd "version.py" ∈ existing w ∧ version_import ext = None
       ∧ C_import ext = Some e))
   ∧ stdout (fst (import_module cwd ext w)) = stdout w)
  ∨ (path_join cwd "version.py" ∈ existing w ∧ version_import ext = None
     ∧ C_import ext = None ∧ "" ∈ dir_ccl_lib ext
     ∧ e = string_index_out_of_range).
Proof.
  rewrite BindingSpec.import_module_eval. simpl. case_bool_decide as Hv.
  - destruct (version_import ext) as [e1|]; [naive_solver|].
    destruct (C_import ext) as [e2|]; [naive_solver|].
    destruct (decide ("" ∈ dir_ccl_lib ext)) as [Hin|Hne].
    + rewrite (ExportsSpec.all_names_empty_name _ Hin). intros He. right.
      split_and!; try done.
      destruct (_ && _); [|naive_solver].
      destruct (dlopen ext _); naive_solver.
    + destruct (ExportsSpec.all_names_ok _ Hne) as (names & ->).
      destruct (_ && _); [|done]. by destruct (dlopen ext _).
  - naive_solver.
Qed.

Lemma import_module_failure_order_witness :
  ((((path_join "/pkg" "version.py" ∉ ({[ "/pkg/version.py" ]} : gset string))
     ∧ string_index_out_of_range = not_installed)
    ∨ (path_join "/pkg" "version.py" ∈ ({[ "/pkg/version.py" ]} : gset string)
       ∧ None = Some string_index_out_of_range)
    ∨ (path_join "/pkg" "version.py" ∈ ({[ "/pkg/version.py" ]} : gset string)
       ∧ (None : option exn) = None
       ∧ None = Some string_index_out_of_range))
   ∧ stdout (fst (import_module "/pkg"
                    (Externals None None true true (λ _, FileMissing)
                       ["ProcessGroupCCL"; ""])
                    (World ∅ {[ "/pkg/version.py" ]} [])))
     = [])
  ∨ (path_join "/pkg" "version.py" ∈ ({[ "/pkg/version.py" ]} : gset string)
     ∧ (None : option exn) = None ∧ (None : option exn) = None
     ∧ "" ∈ ["ProcessGroupCCL"; ""]
     ∧ string_index_out_of_range = string_index_out_of_range).
Proof.
  exact (import_module_failure_order "/pkg"
           (Externals None None true true (λ _, FileMissing)
              ["ProcessGroupCCL"; ""])
           (World ∅ {[ "/pkg/version.py" ]} [])
           string_index_out_of_range eq_refl).
Defined.

(** An import that fails at the export list, after the warning was
    printed. *)
Example import_module_warning_then_index_error :
  import_module "/pkg"
    (Externals None None true true (λ _, FileMissing) ["ProcessGroupCCL"; ""])
    (World ∅ {[ "/pkg/version.py" ]} [])
  = (World (defaults_of "/pkg" ∅) {[ "/pkg/version.py" ]} [xpu_warning],
     Raise string_index_out_of_range).
Proof. reflexivity. Qed.

(** X5: the module body prints one line, the XPU warning, when it got as far
    as the XPU step, [torch] reports an available XPU and the library could
    not be loaded; in every other case it prints nothing. *)
Theorem import_module_stdout cwd ext w :
  let warned :=
    path_join cwd "version.py" ∈ existing w
    ∧ version_import ext = None ∧ C_import ext = None
    ∧ hasattr_xpu ext = true ∧ xpu_is_available ext = true
    ∧ dlopen ext (path_join cwd "lib/liboneccl_bindings_for_pytorch_xpu.so")
      ∈ [FileMissing; Unloadable] in
  (warned → stdout (fst (import_module cwd ext w)) = stdout w ++ [xpu_warning])
  ∧ (¬ warned → stdout (fst (import_module cwd ext w)) = stdout w).
Proof.
  rewrite BindingSpec.import_module_eval. simpl. split.
  - intros (Hv & Hvi & HC & Hx & Ha & Hd).
    rewrite bool_decide_eq_true_2, Hvi, HC, Hx, Ha by done. simpl.
    destruct (dlopen ext _); [|done..].
    repeat (apply elem_of_cons in Hd as [Hd|Hd]; [done|]).
    by apply elem_of_nil in Hd.
  - intros Hnot. case_bool_decide as Hv; [|done].
    destruct (version_import ext) as [e|] eqn:Hvi; [done|].
    destruct (C_import ext) as [e|] eqn:HC; [done|].
    destruct (hasattr_xpu ext) eqn:Hx; [|done].
    destruct (xpu_is_available ext) eqn:Ha; [|done]. simpl.
    destruct (dlopen ext _) eqn:Hd; [done|..]; exfalso; apply Hnot;
      split_and!; try done; set_solver.
Qed.

(** X6: after a module body that completed, [my_c_library] is bound to a
    handle exactly when [torch] has an available XPU and the loader returned
    that handle for the library in the package's [lib] directory; [torch]
    without XPU means the loader is never asked. *)
Theorem import_module_my_c_library cwd ext w g h :
  snd (import_module cwd ext w) = Ok g →
  (g_my_c_library g = Some h ↔
   hasattr_xpu ext = true ∧ xpu_is_available ext = true
   ∧ dlopen ext (path_join cwd "lib/liboneccl_bindings_for_pytorch_xpu.so")
     = Loaded h)
  ∧ g_cwd g = cwd ∧ g_FI_PROVIDER_PATH g = path_join cwd "lib/prov".
Proof.
  rewrite BindingSpec.import_module_eval. simpl.
  case_bool_decide as Hv; [|done].
  destruct (version_import ext) as [e|]; [done|].
  destruct (C_import ext) as [e|]; [done|].
  destruct (Exports.all_names (dir_ccl_lib ext)) as [err|names].
  { destruct (_ && _); [|done]. by destruct (dlopen ext _). }
  destruct (hasattr_xpu ext), (xpu_is_available ext); simpl;
    try (intros [= <-]; simpl; naive_solver).
  destruct (dlopen ext _); intros [= <-]; simpl; naive_solver.
Qed.

Lemma import_module_my_c_library_witness :
  (g_my_c_library (Globals "/pkg" "/pkg/lib/prov" (Some 7%positive) [])
   = Some 7%positive ↔
   hasattr_xpu (Externals None None true true (λ _, Loaded 7) []) = true
   ∧ xpu_is_available (Externals None None true true (λ _, Loaded 7) []) = true
   ∧ dlopen (Externals None None true true (λ _, Loaded 7) [])
       (path_join "/pkg" "lib/liboneccl_bindings_for_pytorch_xpu.so")
     = Loaded 7)
  ∧ g_cwd (Globals "/pkg" "/pkg/lib/prov" (Some 7%positive) []) = "/pkg"
  ∧ g_FI_PROVIDER_PATH (Globals "/pkg" "/pkg/lib/prov" (Some 7%positive) [])
    = path_join "/pkg" "lib/prov".
Proof.
  exact (import_module_my_c_library "/pkg"
           (Externals None None true true (λ _, Loaded 7) [])
           (World ∅ {[ "/pkg/version.py" ]} [])
           (Globals "/pkg" "/pkg/lib/prov" (Some 7%positive) [])
           7%positive eq_refl).
Defined.

(** **** [is_available] *)

Lemma is_available_iff (tensors : list tensor) :
  is_available tensors = true ↔
  Forall (λ t, is_contiguous t = true) tensors
  ∧ NoDup (get_device <$> tensors).
Proof.
  unfold is_available. rewrite BindingSpec.is_available_run_true.
  naive_solver set_solver.
Qed.

Lemma bool_eq_iff (b1 b2 : bool) : (b1 = true ↔ b2 = true) → b1 = b2.
Proof. destruct b1, b2; naive_solver. Qed.

(** X7: the answer of [is_available] does not depend on the order of the
    tensors. *)
Theorem is_available_permutation (tensors tensors' : list tensor) :
  tensors ≡ₚ tensors' → is_available tensors = is_available tensors'.
Proof.
  intros Hperm. apply bool_eq_iff. rewrite !is_available_iff.
  by rewrite Hperm.
Qed.

Lemma is_available_permutation_witness :
  is_available [Tensor true 0; Tensor true 1; Tensor false 2]
  = is_available [Tensor false 2; Tensor true 0; Tensor true 1].
Proof.
  apply is_available_permutation. symmetry.
  apply (Permutation_cons_append [Tensor true 0; Tensor true 1] (Tensor false 2)).
Defined.

(** X8: a concatenation is accepted exactly when both parts are accepted
    and no tensor of the first part shares its device with a tensor of the
    second. *)
Theorem is_available_app (l1 l2 : list tensor) :
  is_available (l1 ++ l2) = true ↔
  is_available l1 = true ∧ is_available l2 = true
  ∧ ∀ t1 t2, t1 ∈ l1 → t2 ∈ l2 → get_device t1 ≠ get_device t2.
Proof.
  rewrite !is_available_iff, Forall_app, fmap_app, NoDup_app. split.
  - intros ((H1 & H2) & Hn1 & Hdisj & Hn2). split_and!; try done.
    intros t1 t2 Ht1 Ht2 Heq. apply (Hdisj (get_device t1)).
    + by apply list_elem_of_fmap_2.
    + rewrite Heq. by apply list_elem_of_fmap_2.
  - intros ((H1 & Hn1) & (H2 & Hn2) & Hdisj). split_and!; try done.
    intros d Hd1 Hd2.
    apply list_elem_of_fmap in Hd1 as (t1 & -> & Ht1).
    apply list_elem_of_fmap in Hd2 as (t2 & Heq & Ht2).
    by apply (Hdisj t1 t2).
Qed.

(** X9: what [is_available] accepts stays accepted when tensors are left
    out. *)
Theorem is_available_sublist (l tensors : list tensor) :
  l `sublist_of` tensors → is_available tensors = true → is_available l = true.
Proof.
  intros Hsub. rewrite !is_available_iff. intros [Hall Hnd]. split.
  - rewrite Forall_forall in Hall. apply Forall_forall.
    intros t Ht. apply Hall. by eapply elem_of_sublist.
  - apply (sublist_NoDup _ (get_device <$> tensors)); [done|].
    by apply fmap_sublist.
Qed.

Lemma is_available_sublist_witness :
  is_available [Tensor true 0; Tensor true 2] = true.
Proof.
  apply (is_available_sublist _ [Tensor true 0; Tensor true 1; Tensor true 2]);
    [|reflexivity].
  apply sublist_skip, sublist_cons, sublist_skip, sublist_nil.
Defined.

(** X10: [is_available] accepts at most one tensor per device: a sequence it
    accepts, all of whose tensors are on devices of [devices], has at most
    as many tensors as [devices] has members. *)
Theorem is_available_at_most_one_per_device (tensors : list tensor)
    (devices : gset Z) :
  is_available tensors = true →
  (∀ t, t ∈ tensors → get_device t ∈ devices) →
  (length tensors ≤ size devices)%nat.
Proof.
  rewrite is_available_iff. intros [_ Hnd] Hin.
  rewrite <-(length_fmap get_device).
  rewrite <-(size_list_to_set (C := gset Z)) by done.
  apply subseteq_size. intros d Hd. apply elem_of_list_to_set in Hd.
  apply list_elem_of_fmap in Hd as (t & -> & Ht). by apply Hin.
Qed.

Lemma is_available_at_most_one_per_device_witness :
  (length [Tensor true 0; Tensor true 1]
   ≤ size ({[ 0%Z; 1%Z; 2%Z ]} : gset Z))%nat.
Proof.
  apply is_available_at_most_one_per_device; [reflexivity|].
  intros t Ht.
  repeat (apply elem_of_cons in Ht as [->|Ht]; [set_solver|]).
  by apply elem_of_nil in Ht.
Defined.

End BindingExtra.


(** ** Part III: properties of the test script *)

Module ScriptSpec.
Import Script.
Local Open Scope list_scope.

(** **** Splitting a line *)

Lemma split_comma_cons s : ∃ field fields, split_comma s = field :: fields.
Proof.
  destruct s as [|c s]; simpl; [by eauto|].
  case_bool_decide; [by eauto|]. destruct (split_comma s); eauto.
Qed.

Lemma split_comma_length s : length (split_comma s) = S (commas s).
Proof.
  induction s as [|c s IH]; [done|]. simpl.
  case_bool_decide; simpl; [by rewrite IH|].
  destruct (split_comma s) as [|field fields]; [done|]. by simpl in *.
Qed.

Lemma split_comma_join s : join_comma (split_comma s) = s.
Proof.
  induction s as [|c s IH]; [done|]. simpl.
  case_bool_decide as Hc.
  - destruct (split_comma_cons s) as (field & fields & Hs).
    rewrite Hs in *. simpl in *. by rewrite IH, Hc.
  - destruct (split_comma s) as [|field [|field' fields]]; simpl in *;
      by rewrite <-IH.
Qed.

(** **** [read_file] *)

Section ReadFile.
Variable int : string → option Z.
Variable strip : string → string.

Abbreviation read_line := (read_line int strip).
Abbreviation read_lines := (read_lines int strip).
Abbreviation read_file := (read_file int strip).

(** A line that [read_file] takes in: three fields, of which the last two
    are numbers, the root below [world_size]. *)
Lemma read_line_ok line t st st' t' :
  read_line line t st = (st', inr t') →
  st' = st ∧ commas (strip line) = 2
  ∧ ∃ op size root,
      t' = Table (ops t ++ [op]) (sizes t ++ [size]) (roots t ++ [root])
      ∧ (root < world_size)%Z.
Proof.
  unfold Script.read_line.
  pose proof (split_comma_length (strip line)) as Hlen.
  destruct (split_comma (strip line)) as [|op [|size [|root [|? ?]]]];
    try done.
  simpl in Hlen. unfold int_of, mbind, Py_bind, mret, Py_ret, raise.
  destruct (int size) as [sz|]; [|done].
  destruct (int root) as [rt|]; [|done].
  case_bool_decide as Hroot; [done|]. intros [= <- <-].
  split_and!; [done|lia|]. exists op, sz, rt. split; [done|lia].
Qed.

Lemma read_lines_ok lines t st st' t' :
  read_lines lines t st = (st', inr t') →
  st' = st
  ∧ Forall (λ line, commas (strip line) = 2) lines
  ∧ length (ops t') = length (ops t) + length lines
  ∧ length (sizes t') = length (sizes t) + length lines
  ∧ length (roots t') = length (roots t) + length lines
  ∧ (Forall (λ r, (r < world_size)%Z) (roots t) →
     Forall (λ r, (r < world_size)%Z) (roots t')).
Proof.
  revert t st. induction lines as [|line lines IH]; intros t st; simpl.
  - intros [= <- <-]. split_and!; try done; lia.
  - unfold mbind, Py_bind.
    destruct (read_line line t st) as [st1 [e|t1]] eqn:Hline; [done|].
    apply read_line_ok in Hline as (-> & Hcommas & op & sz & rt & -> & Hrt).
    intros Hrest. apply IH in Hrest as (-> & Hall & Ho & Hs & Hr & Hroots).
    simpl in *. rewrite !length_app in *. simpl in *.
    split_and!; try done; try lia; [by constructor|].
    intros Hold. apply Hroots, Forall_app. split; [done|]. by constructor.
Qed.

Lemma read_file_ok filename st st' t :
  read_file filename st = (st', inr t) →
  st' = st
  ∧ ∃ lines, files st !! filename = Some lines
     ∧ Forall (λ line, commas (strip line) = 2) lines
     ∧ length (ops t) = length lines
     ∧ length (sizes t) = length lines
     ∧ length (roots t) = length lines
     ∧ Forall (λ r, (r < world_size)%Z) (roots t).
Proof.
  unfold Script.read_file, mbind, Py_bind, open.
  destruct (files st !! filename) as [lines|]; [|done].
  intros Hlines. apply read_lines_ok in Hlines as (-> & Hall & Ho & Hs & Hr & Hroots).
  split; [done|]. exists lines. split_and!; try done. by apply Hroots.
Qed.

(** X13: a table that [read_file] returns has one entry in each of [ops],
    [sizes] and [roots] for every line of the file, every line of the file
    has exactly two commas once stripped, and every root is below
    [world_size]; reading changes nothing and prints nothing. *)
Theorem read_file_table filename st st' t :
  read_file filename st = (st', inr t) →
  st' = st
  ∧ ∃ lines, files st !! filename = Some lines
     ∧ Forall (λ line, commas (strip line) = 2) lines
     ∧ length (ops t) = length lines
     ∧ length (sizes t) = length lines
     ∧ length (roots t) = length lines
     ∧ Forall (λ r, (r < world_size)%Z) (roots t).
Proof. apply read_file_ok. Qed.

Lemma read_lines_app l1 l2 t st :
  read_lines (l1 ++ l2) t st
  = match read_lines l1 t st with
    | (st', inr t') => read_lines l2 t' st'
    | (st', inl e) => (st', inl e)
    end.
Proof.
  revert t st. induction l1 as [|line l1 IH]; intros t st; simpl; [done|].
  unfold mbind, Py_bind.
  destruct (read_line line t st) as [st1 [e|t1]]; [done|]. apply IH.
Qed.

(** X14: at the first line whose root is not below [world_size], [read_file]
    prints [Invalid root] with that root and exits; the lines after it are
    not looked at. *)
Theorem read_file_invalid_root filename st good line rest t op size root sz rt :
  files st !! filename = Some (good ++ line :: rest) →
  read_lines good (Table [] [] []) st = (st, inr t) →
  split_comma (strip line) = [op; size; root] →
  int size = Some sz → int root = Some rt → (world_size ≤ rt)%Z →
  read_file filename st
  = (add_trace st [Print ("Invalid root " ++ pretty rt)%string], inl SystemExit).
Proof.
  intros Hfile Hgood Hsplit Hsz Hrt Hbad.
  unfold Script.read_file, mbind, Py_bind, open. rewrite Hfile.
  rewrite read_lines_app, Hgood. simpl.
  unfold mbind, Py_bind, Script.read_line. rewrite Hsplit.
  unfold int_of, mbind, Py_bind. rewrite Hsz, Hrt. simpl.
  by rewrite bool_decide_eq_true_2.
Qed.

(** X15: at the first line that does not have exactly two commas once
    stripped (a blank line, say), [read_file] raises [ValueError]. *)
Theorem read_file_field_count filename st good line rest t :
  files st !! filename = Some (good ++ line :: rest) →
  read_lines good (Table [] [] []) st = (st, inr t) →
  commas (strip line) ≠ 2 →
  read_file filename st = (st, inl ValueError).
Proof.
  intros Hfile Hgood Hcommas.
  unfold Script.read_file, mbind, Py_bind, open. rewrite Hfile.
  rewrite read_lines_app, Hgood. simpl.
  unfold mbind, Py_bind, Script.read_line.
  pose proof (split_comma_length (strip line)) as Hlen.
  destruct (split_comma (strip line)) as [|op [|size [|root [|? ?]]]];
    try done.
  simpl in Hlen. lia.
Qed.

End ReadFile.

(** **** [test_ccl] *)

Local Opaque world_size.

Lemma add_trace_nil st : add_trace st [] = st.
Proof. destruct st. unfold add_trace. simpl. by rewrite app_nil_r. Qed.

Lemma add_trace_app st e1 e2 :
  add_trace (add_trace st e1) e2 = add_trace st (e1 ++ e2).
Proof. unfold add_trace. simpl. by rewrite (assoc_L (++)). Qed.

Lemma add_tensors_0 st : add_tensors st 0 = st.
Proof. destruct st. unfold add_tensors. simpl. by rewrite Nat.add_0_r. Qed.

Lemma add_tensors_add st a b :
  add_tensors (add_tensors st a) b = add_tensors st (a + b).
Proof. unfold add_tensors. simpl. f_equal. lia. Qed.

Lemma add_tensors_trace st n events :
  add_tensors (add_trace st events) n = add_trace (add_tensors st n) events.
Proof. done. Qed.

Lemma calls_app e1 e2 : calls (e1 ++ e2) = calls e1 ++ calls e2.
Proof. unfold calls. by rewrite filter_app. Qed.

Lemma range_of_nat n : range (Z.of_nat n) = seq 0 n.
Proof. unfold range. by rewrite Nat2Z.id. Qed.

Lemma getitem_Some {A} (l : list A) i x st :
  l !! i = Some x → getitem l i st = (st, inr x).
Proof. intros Hx. unfold getitem. by rewrite Hx. Qed.

Lemma getitem_None {A} (l : list A) i st :
  l !! i = None → getitem l i st = (st, inl IndexError).
Proof. intros Hx. unfold getitem. by rewrite Hx. Qed.

Lemma known_cases op :
  (op = "reduce" ∨ op = "allreduce" ∨ op = "allgather" ∨ op = "broadcast")
  ∧ known op = true
  ∨ (op ≠ "reduce" ∧ op ≠ "allreduce" ∧ op ≠ "allgather" ∧ op ≠ "broadcast")
    ∧ known op = false.
Proof.
  unfold known. case_bool_decide as Hk.
  - left. split; [|done]. set_solver.
  - right. split; [|done]. set_solver.
Qed.

Lemma ready_nil ops : ready ops [] [].
Proof. split; [done|]. intros i t s Hi. by rewrite lookup_nil in Hi. Qed.

Lemma seq_split a n :
  (a < n)%nat → seq 0 n = seq 0 a ++ a :: seq (S a) (n - S a).
Proof.
  intros Ha. replace n with (a + S (n - S a)) at 1 by lia.
  by rewrite seq_app.
Qed.

(** The calls of the inner loop over the indices from [a] on. *)
Lemma sum_calls_at ops m :
  ∀ a, (a + m ≤ length ops)%nat →
    sum_list_with (calls_at ops) (seq a m)
    = length (filter (λ op, known op = true) (take m (drop a ops))).
Proof.
  induction m as [|m IH]; intros a Ha; [done|].
  destruct (lookup_lt_is_Some_2 ops a) as [op Hop]; [lia|].
  cbn [seq sum_list_with]. rewrite IH by lia.
  rewrite (drop_S _ _ _ Hop). cbn [take]. rewrite filter_cons.
  unfold calls_at. rewrite Hop.
  case_decide as Hk; [by rewrite Hk|].
  by destruct (known op).
Qed.

Lemma sum_list_const {A} (l : list A) n :
  sum_list_with (λ _, n) l = length l * n.
Proof. induction l as [|x l IH]; [done|]. simpl. by rewrite IH. Qed.

Lemma setup_accepted_le torch sizes device a b :
  (a ≤ b)%nat → setup_accepted torch sizes device b →
  setup_accepted torch sizes device a.
Proof. intros Hab Hacc i size Hi. apply Hacc. lia. Qed.

Lemma tensor_accepted_refused torch size device e :
  tensor_accepted torch size device → ¬ tensor_refused torch size device e.
Proof.
  intros [Hrandn Hto] [[st Hst]|(st & t & Hst)]; congruence.
Qed.

Lemma setup_accepted_refused torch sizes device bound e :
  setup_accepted torch sizes device bound →
  ¬ setup_refused torch sizes device bound e.
Proof.
  intros Hacc (i & size & Hi & Hsize & Href).
  by eapply tensor_accepted_refused; [eapply Hacc|].
Qed.

Lemma calls_return_refused torch e :
  calls_return torch → ¬ call_refused torch e.
Proof. intros Hret (st & ev & Hst). by rewrite Hret in Hst. Qed.

Section TestCcl.
Variable torch : torch_api.

Abbreviation randn := (randn torch).
Abbreviation to_device := (to_device torch).
Abbreviation randn_many := (randn_many torch).
Abbreviation init_tensors := (init_tensors torch).
Abbreviation issue := (issue torch).
Abbreviation test_ccl := (test_ccl torch).

Lemma randn_cases size st :
  randn_raises torch st size = None
  ∧ randn size st = (add_tensors st 1, inr (Tensor (next_id st) size))
  ∨ ∃ e, randn_raises torch st size = Some e
         ∧ randn size st = (st, inl (TorchError e)).
Proof.
  unfold Script.randn, torch_call, mbind, Py_bind.
  destruct (randn_raises torch st size) as [e|]; [right; by eauto|left].
  split; [done|]. unfold add_tensors. do 3 f_equal. lia.
Qed.

Lemma to_device_cases data device st :
  to_raises torch st data device = None
  ∧ to_device data device st = (st, inr tt)
  ∨ ∃ e, to_raises torch st data device = Some e
         ∧ to_device data device st = (st, inl (TorchError e)).
Proof.
  unfold Script.to_device, torch_call.
  destruct (to_raises torch st data device) as [e|]; [right; by eauto|by left].
Qed.

(** A new tensor on the device, or the error of torch. *)
Lemma new_tensor_cases size device st :
  (randn size st = (add_tensors st 1, inr (Tensor (next_id st) size))
   ∧ to_device (Tensor (next_id st) size) device (add_tensors st 1)
     = (add_tensors st 1, inr tt))
  ∨ ∃ k e,
      (data ← randn size; to_device data device;; mret data) st
      = (add_tensors st k, inl (TorchError e))
      ∧ tensor_refused torch size device e.
Proof.
  destruct (randn_cases size st) as [[_ Hrandn]|(e & Hraise & Hrandn)].
  - destruct (to_device_cases (Tensor (next_id st) size) device
                (add_tensors st 1)) as [[_ Hto]|(e & Hraise & Hto)].
    + by left.
    + right. exists 1, e. unfold mbind, Py_bind. rewrite Hrandn, Hto.
      split; [done|]. right. by eauto.
  - right. exists 0, e. unfold mbind, Py_bind.
    rewrite Hrandn, add_tensors_0. split; [done|]. left. by eauto.
Qed.

Lemma randn_many_outcome n size device :
  ∀ acc st, ∃ k,
    (∃ ts, randn_many n size device acc st
           = (add_tensors st k, inr (acc ++ ts))
           ∧ length ts = n
           ∧ Forall (λ t, t_len t = size ∧ (next_id st ≤ t_id t)%nat) ts)
    ∨ (∃ e, randn_many n size device acc st
            = (add_tensors st k, inl (TorchError e))
            ∧ tensor_refused torch size device e).
Proof.
  induction n as [|n IH]; intros acc st.
  - exists 0. left. exists []. simpl. by rewrite add_tensors_0, app_nil_r.
  - cbn [Script.randn_many]. unfold mbind, Py_bind.
    destruct (randn_cases size st) as [[_ ->]|(e & Hraise & ->)]; cycle 1.
    { exists 0. right. exists e. rewrite add_tensors_0.
      split; [done|]. left. by eauto. }
    destruct (to_device_cases (Tensor (next_id st) size) device
                (add_tensors st 1)) as [[_ ->]|(e & Hraise & ->)]; cycle 1.
    { exists 1. right. exists e. split; [done|]. right. by eauto. }
    destruct (IH (acc ++ [Tensor (next_id st) size]) (add_tensors st 1))
      as (k & [(ts & -> & Hlen & Hall)|(e & -> & Href)]).
    + exists (1 + k). left. exists (Tensor (next_id st) size :: ts).
      rewrite add_tensors_add, <-(assoc_L (++)).
      split_and!; [done|by simpl; lia|].
      constructor; [done|].
      eapply Forall_impl; [done|]. simpl. intros t [? ?]. split; [done|lia].
    + exists (1 + k). right. exists e. by rewrite add_tensors_add.
Qed.

Lemma init_tensors_app l1 l2 ops sizes device input output st :
  init_tensors (l1 ++ l2) ops sizes device input output st
  = match init_tensors l1 ops sizes device input output st with
    | (st', inr (input', output')) =>
        init_tensors l2 ops sizes device input' output' st'
    | (st', inl e) => (st', inl e)
    end.
Proof.
  revert input output st. induction l1 as [|i l1 IH]; intros input output st.
  - done.
  - simpl. unfold mbind, Py_bind.
    destruct (getitem sizes i st) as [st1 [e|size]]; [done|].
    destruct (randn size st1) as [st2 [e|data]]; [done|].
    destruct (to_device data device st2) as [st2' [e|[]]]; [done|].
    destruct (getitem ops i st2') as [st3 [e|op]]; [done|].
    case_bool_decide; [|apply IH].
    destruct (randn_many (Z.to_nat world_size) size device [] st3)
      as [st4 [e|tmp]]; [done|]. apply IH.
Qed.

(** One pass of the first loop, for the next index. *)
Lemma init_tensors_step ops sizes device input output st size op :
  sizes !! length input = Some size →
  ops !! length input = Some op →
  ready ops input output →
  ∃ k,
    (∃ input' output',
       init_tensors [length input] ops sizes device input output st
       = (add_tensors st k, inr (input', output'))
       ∧ length input' = S (length input)
       ∧ ready ops input' output')
    ∨ (∃ e,
         init_tensors [length input] ops sizes device input output st
         = (add_tensors st k, inl (TorchError e))
         ∧ tensor_refused torch size device e).
Proof.
  intros Hsize Hop [Hlen Hready]. cbn [Script.init_tensors].
  unfold mbind, Py_bind. rewrite (getitem_Some _ _ _ _ Hsize).
  destruct (randn_cases size st) as [[_ ->]|(e & Hraise & ->)]; cycle 1.
  { exists 0. right. exists e. rewrite add_tensors_0.
    split; [done|]. left. by eauto. }
  destruct (to_device_cases (Tensor (next_id st) size) device
              (add_tensors st 1)) as [[_ ->]|(e & Hraise & ->)]; cycle 1.
  { exists 1. right. exists e. split; [done|]. right. by eauto. }
  rewrite (getitem_Some _ _ _ _ Hop).
  set (data := Tensor (next_id st) size).
  assert (∀ s, (ops !! length input = Some "allgather" → gather_slot data s) →
               ready ops (input ++ [data]) (output ++ [s])) as Hnew.
  { intros s Hs. split; [rewrite !length_app; simpl; lia|].
    intros i t s' Hi Ho Hg.
    destruct (decide (i < length input)) as [Hlt|Hge].
    - rewrite lookup_app_l in Hi by done.
      rewrite lookup_app_l in Ho by lia. by eapply Hready.
    - assert (i = length input) as ->.
      { apply lookup_lt_Some in Hi. rewrite length_app in Hi. simpl in Hi. lia. }
      rewrite list_lookup_middle in Hi by done.
      rewrite list_lookup_middle in Ho by done.
      injection Hi as <-. injection Ho as <-. by apply Hs. }
  case_bool_decide as Hag.
  - destruct (randn_many_outcome (Z.to_nat world_size) size device []
                (add_tensors st 1))
      as (k & [(ts & -> & Hts & Hall)|(e & -> & Href)]).
    + exists (1 + k). left. rewrite add_tensors_add. simpl.
      exists (input ++ [data]), (output ++ [Many ts]).
      split_and!; [done|rewrite length_app; simpl; lia|].
      apply Hnew. intros _. exists ts. split_and!; [done..|].
      eapply Forall_impl; [done|]. simpl. intros t [? ?]. split; [done|lia].
    + exists (1 + k). right. exists e. by rewrite add_tensors_add.
  - exists 1. left. exists (input ++ [data]), (output ++ [One data]).
    split_and!; [done|rewrite length_app; simpl; lia|].
    apply Hnew. intros Hg. congruence.
Qed.

(** The first loop on a table it fits: it makes the tensors and prints
    nothing, or torch refuses one of them. *)
Lemma init_tensors_outcome ops sizes device m :
  ∀ input output st,
    (length input + m ≤ length sizes)%nat →
    (length input + m ≤ length ops)%nat →
    ready ops input output →
    ∃ k,
      (∃ input' output',
         init_tensors (seq (length input) m) ops sizes device input output st
         = (add_tensors st k, inr (input', output'))
         ∧ length input' = length input + m
         ∧ ready ops input' output')
      ∨ (∃ e,
           init_tensors (seq (length input) m) ops sizes device input output st
           = (add_tensors st k, inl (TorchError e))
           ∧ setup_refused torch sizes device (length input + m) e).
Proof.
  induction m as [|m IH]; intros input output st Hs Ho Hready.
  - exists 0. left. exists input, output. simpl. rewrite add_tensors_0.
    split_and!; [done|lia|done].
  - destruct (lookup_lt_is_Some_2 sizes (length input)) as [size Hsize]; [lia|].
    destruct (lookup_lt_is_Some_2 ops (length input)) as [op Hop]; [lia|].
    change (seq (length input) (S m))
      with ([length input] ++ seq (S (length input)) m).
    rewrite init_tensors_app.
    destruct (init_tensors_step ops sizes device input output st size op)
      as (k1 & [(input1 & output1 & -> & Hlen1 & Hready1)|(e & -> & Href)]);
      try done; cycle 1.
    { exists k1. right. exists e. split; [done|].
      exists (length input), size. split_and!; [lia|done..]. }
    rewrite <-Hlen1.
    destruct (IH input1 output1 (add_tensors st k1))
      as (k2 & [(input2 & output2 & -> & Hlen2 & Hready2)|(e & -> & Href)]);
      try done; try lia.
    + exists (k1 + k2). left. exists input2, output2.
      rewrite add_tensors_add. split_and!; [done|lia|done].
    + exists (k1 + k2). right. exists e. rewrite add_tensors_add.
      split; [done|].
      by replace (length input + S m) with (length input1 + m) by lia.
Qed.

(** So when torch makes every tensor. *)
Lemma init_tensors_ok ops sizes device m input output st :
  (length input + m ≤ length sizes)%nat →
  (length input + m ≤ length ops)%nat →
  setup_accepted torch sizes device (length input + m) →
  ready ops input output →
  ∃ k input' output',
    init_tensors (seq (length input) m) ops sizes device input output st
    = (add_tensors st k, inr (input', output'))
    ∧ length input' = length input + m
    ∧ ready ops input' output'.
Proof.
  intros Hs Ho Hacc Hready.
  destruct (init_tensors_outcome ops sizes device m input output st)
    as (k & [(input' & output' & Hrun)|(e & _ & Href)]); try done.
  - by exists k, input', output'.
  - by apply setup_accepted_refused in Href.
Qed.

(** The body of the inner loop at an index the lists have: one call when
    the operation is known, none otherwise, and the call fits; the call
    returns or raises. *)
Lemma issue_outcome rank ops roots input output i st :
  (i < length ops)%nat →
  (i < length roots)%nat → (i < length input)%nat →
  ready ops input output →
  ∃ events,
    (issue rank ops roots input output i st = (add_trace st events, inr tt)
     ∧ length (calls events) = calls_at ops i
     ∨ ∃ e, issue rank ops roots input output i st
            = (add_trace st events, inl (TorchError e))
            ∧ call_refused torch e)
    ∧ Forall (call_ok roots) events.
Proof.
  intros Ho Hr Hi [Hlen Hready].
  destruct (lookup_lt_is_Some_2 ops i Ho) as [op Hop].
  destruct (lookup_lt_is_Some_2 roots i Hr) as [root Hroot].
  destruct (lookup_lt_is_Some_2 input i Hi) as [t Ht].
  destruct (lookup_lt_is_Some_2 output i) as [out Hout]; [lia|].
  assert (root ∈ roots) as Hin by by eapply list_elem_of_lookup_2.
  unfold Script.issue, calls_at, getitem. rewrite Hop, Hroot, Ht, Hout.
  cbv [mbind Py_bind mret Py_ret when print emit dist_call torch_call].
  destruct (known_cases op) as [[Hcase ->]|[(H1 & H2 & H3 & H4) ->]].
  - destruct Hcase as [-> | [-> | [-> | ->]]];
      repeat (first [rewrite bool_decide_eq_true_2 by done
                    |rewrite bool_decide_eq_false_2 by done]);
      destruct (call_raises torch _ _) as [e|] eqn:Hcall;
      eexists;
      (split;
       [first [left; split; [unfold add_trace; simpl;
                             rewrite <-?(assoc_L (++)); reflexivity|done]
              |right; exists e; split; [unfold add_trace; simpl;
                             rewrite <-?(assoc_L (++)); reflexivity
                                       |eexists _, _; exact Hcall]]|]);
      repeat constructor; try done; by eapply Hready.
  - rewrite !bool_decide_eq_false_2 by done.
    exists []. rewrite add_trace_nil. split; [by left|done].
Qed.

(** A loop whose passes return or raise what torch raised. *)
Lemma for_each_outcome {A} (l : list A) (body : A → Py unit) (c : A → nat)
    (P : event → Prop) (F : string → Prop) :
  (∀ x st, x ∈ l →
     ∃ events,
       (body x st = (add_trace st events, inr tt)
        ∧ length (calls events) = c x
        ∨ ∃ e, body x st = (add_trace st events, inl (TorchError e)) ∧ F e)
       ∧ Forall P events) →
  ∀ st, ∃ events,
    (for_each l body st = (add_trace st events, inr tt)
     ∧ length (calls events) = sum_list_with c l
     ∨ ∃ e, for_each l body st = (add_trace st events, inl (TorchError e)) ∧ F e)
    ∧ Forall P events.
Proof.
  induction l as [|x l IH]; intros Hbody st.
  - exists []. simpl. rewrite add_trace_nil. split; [by left|done].
  - cbn [for_each]. unfold mbind, Py_bind.
    destruct (Hbody x st) as (e1 & [[-> Hc1]|(e & -> & HF)] & Hok1);
      [by left| |]; cycle 1.
    { exists e1. split; [right; by eauto|done]. }
    destruct (IH (λ y st' Hy, Hbody y st' (list_elem_of_further _ _ _ Hy))
                (add_trace st e1))
      as (e2 & [[-> Hc2]|(e & -> & HF)] & Hok2).
    + exists (e1 ++ e2). rewrite add_trace_app.
      split; [left; split; [done|]|by apply Forall_app].
      rewrite calls_app, length_app, Hc1, Hc2. done.
    + exists (e1 ++ e2). rewrite add_trace_app.
      split; [right; by eauto|by apply Forall_app].
Qed.

Lemma test_ccl_start ops sizes roots device rank rnds st :
  test_ccl ops sizes roots device rank rnds st
  = match init_tensors (seq 0 (length sizes)) ops sizes device [] []
            (add_trace st [Print ("Rank " ++ pretty rank
                                  ++ ": starting to initialize tensors ...")%string])
    with
    | (st', inl e) => (st', inl e)
    | (st', inr (input, output)) =>
        (print ("Rank " ++ pretty rank
                ++ ": tensors initialization finished!")%string;;
         for_each (range rnds) (λ k,
           for_each (seq 0 (length ops))
             (issue rank ops roots input output))) st'
    end.
Proof.
  unfold Script.test_ccl. rewrite !range_of_nat.
  unfold mbind at 1 2, Py_bind at 1 2. unfold print at 1, emit at 1.
  fold (add_trace st [Print ("Rank " ++ pretty rank
                             ++ ": starting to initialize tensors ...")%string]).
  by destruct (Script.init_tensors _ _ _ _ _ _ _ _) as [st' [e|[input output]]].
Qed.

(** How [test_ccl] ends on a table whose lists are equally long: with the
    calls of the table made, or with what torch raised. *)
Lemma test_ccl_outcome ops sizes roots device rank rnds st :
  length ops = length sizes → length roots = length ops →
  (∃ n events,
     test_ccl ops sizes roots device rank rnds st
     = (add_trace (add_tensors st n) events, inr tt)
     ∧ length (calls events)
       = Z.to_nat rnds * length (filter (λ op, known op = true) ops)
     ∧ Forall (call_ok roots) events)
  ∨ (∃ st' e,
       test_ccl ops sizes roots device rank rnds st = (st', inl (TorchError e))
       ∧ (setup_refused torch sizes device (length sizes) e
          ∨ call_refused torch e)).
Proof.
  intros Hsizes Hroots. rewrite test_ccl_start.
  set (st1 := add_trace st _).
  destruct (init_tensors_outcome ops sizes device (length sizes) [] [] st1)
    as (n & [(input & output & Hinit & Hlen & Hready)|(e & Hinit & Href)]);
    [simpl; lia|simpl; lia|apply ready_nil| |]; simpl in Hinit; rewrite Hinit;
    cycle 1.
  { right. eexists _, e. split; [done|]. by left. }
  simpl in Hlen.
  unfold mbind, Py_bind, print, emit. cbn [fst snd].
  set (st2 := State _ _ _ _).
  destruct (for_each_outcome (range rnds)
              (λ _, for_each (seq 0 (length ops))
                      (issue rank ops roots input output))
              (λ _, length (filter (λ op, known op = true) ops))
              (call_ok roots) (call_refused torch)) with (st := st2)
    as (events & [[Hrun Hcount]|(e & Hrun & Href)] & Hok).
  { intros _ st' _.
    destruct (for_each_outcome (seq 0 (length ops))
                (issue rank ops roots input output) (calls_at ops)
                (call_ok roots) (call_refused torch)) with (st := st')
      as (events & Hrun & Hok).
    { intros i st'' Hi%elem_of_seq.
      apply issue_outcome; [lia..|done]. }
    exists events. split; [|done].
    by rewrite sum_calls_at, drop_0, firstn_all in Hrun by (simpl; lia). }
  - left. rewrite Hrun. eexists n, (Print _ :: Print _ :: events). split_and!.
    + f_equal. unfold add_trace, add_tensors, st2, st1. simpl.
      f_equal. by rewrite <-!(assoc_L (++)).
    + simpl. unfold calls in *. rewrite !filter_cons. simpl.
      rewrite Hcount, sum_list_const. unfold range. by rewrite length_seq.
    + by repeat constructor.
  - right. rewrite Hrun. eexists _, e. split; [done|]. by right.
Qed.

(** The first loop up to the index [a]. *)
Lemma init_tensors_upto ops sizes device st a rest :
  (a < length sizes)%nat → (a ≤ length ops)%nat →
  setup_accepted torch sizes device a →
  ∃ k input output,
    length input = a
    ∧ init_tensors (seq 0 a ++ a :: rest) ops sizes device [] [] st
      = init_tensors (a :: rest) ops sizes device input output
          (add_tensors st k).
Proof.
  intros Ha Ho Hacc.
  destruct (init_tensors_ok ops sizes device a [] [] st)
    as (k & input & output & Hrun & Hlen & _);
    [simpl; lia|simpl; lia|done|apply ready_nil|].
  simpl in Hrun, Hlen. exists k, input, output. split; [done|].
  by rewrite init_tensors_app, Hrun.
Qed.

(** X16: on a table whose three lists are equally long, when torch makes
    every tensor of the table and every call into [torch.distributed]
    returns, [test_ccl] completes; it makes [rounds] times as many calls
    into [torch.distributed] as the table has known operations (lines with
    another operation are passed over), every root it passes is one of
    [roots], and every all-gather gets a list of [world_size] output
    tensors, each as long as the input tensor and none of them the input
    tensor. *)
Theorem test_ccl_completes ops sizes roots device rank rnds st :
  length ops = length sizes → length roots = length ops →
  setup_accepted torch sizes device (length sizes) →
  calls_return torch →
  ∃ n events,
    test_ccl ops sizes roots device rank rnds st
    = (add_trace (add_tensors st n) events, inr tt)
    ∧ length (calls events)
      = Z.to_nat rnds * length (filter (λ op, known op = true) ops)
    ∧ Forall (call_ok roots) events.
Proof.
  intros Hsizes Hroots Hacc Hret.
  destruct (test_ccl_outcome ops sizes roots device rank rnds st)
    as [Hrun|(st' & e & _ & [Href|Href])]; [done..| |].
  - by apply setup_accepted_refused in Href.
  - by apply calls_return_refused in Href.
Qed.

(** X17: with fewer operations than sizes, when torch makes the tensors of
    the sizes up to the first one that has no operation, [test_ccl] fails
    with [IndexError] while it makes its tensors: it has printed its first
    line and made no call. *)
Theorem test_ccl_index_error ops sizes roots device rank rnds st :
  (length ops < length sizes)%nat →
  setup_accepted torch sizes device (S (length ops)) →
  ∃ n,
    test_ccl ops sizes roots device rank rnds st
    = (add_trace (add_tensors st n)
         [Print ("Rank " ++ pretty rank
                 ++ ": starting to initialize tensors ...")%string],
       inl IndexError).
Proof.
  intros Hlen Hacc. rewrite test_ccl_start.
  rewrite (seq_split (length ops) (length sizes)) by done.
  set (st1 := add_trace st _).
  destruct (init_tensors_upto ops sizes device st1 (length ops)
              (seq (S (length ops)) (length sizes - S (length ops))))
    as (k & input & output & Hin & ->);
    [done|done|by eapply setup_accepted_le; [|done]; lia|].
  destruct (lookup_lt_is_Some_2 sizes (length ops) Hlen) as [size Hsize].
  destruct (Hacc (length ops) size) as [Hrandn Hto]; [lia|done|].
  cbn [Script.init_tensors]. unfold mbind, Py_bind.
  rewrite (getitem_Some _ _ _ _ Hsize).
  destruct (randn_cases size (add_tensors st1 k))
    as [[_ ->]|(e & Hraise & _)]; [|by rewrite Hrandn in Hraise].
  destruct (to_device_cases (Tensor (next_id (add_tensors st1 k)) size) device
              (add_tensors (add_tensors st1 k) 1))
    as [[_ ->]|(e & Hraise & _)]; [|by rewrite Hto in Hraise].
  rewrite getitem_None by by apply lookup_ge_None_2.
  exists (k + 1). by rewrite add_tensors_add.
Qed.


End TestCcl.

(** **** [worker] *)

Lemma call_ok_root_below roots e :
  Forall (λ r, (r < world_size)%Z) roots → call_ok roots e → root_below e.
Proof.
  intros Hroots. rewrite Forall_forall in Hroots.
  destruct e; simpl; auto.
Qed.

Section Worker.
Variable int : string → option Z.
Variable strip : string → string.
Variable torch : torch_api.

Lemma read_lines_ops lines t st st' t' :
  read_lines int strip lines t st = (st', inr t') →
  ops t' = ops t ++ (line_op strip <$> lines).
Proof.
  revert t st. induction lines as [|line lines IH]; intros t st; simpl.
  - intros [= <- <-]. by rewrite app_nil_r.
  - unfold mbind, Py_bind.
    destruct (read_line int strip line t st) as [st1 [e|t1]] eqn:Hline; [done|].
    intros Hrest. apply IH in Hrest as ->.
    assert (ops t1 = ops t ++ [line_op strip line]) as ->.
    { revert Hline. unfold read_line, line_op.
      destruct (split_comma (strip line)) as [|op [|size [|root [|? ?]]]];
        try done.
      unfold int_of, mbind, Py_bind, mret, Py_ret, raise.
      destruct (int size) as [sz|]; [|done].
      destruct (int root) as [rt|]; [|done].
      case_bool_decide; [done|]. by intros [= <- <-]. }
    by rewrite <-(assoc_L (++)).
Qed.

(** [read_file] does not fail with [IndexError]. *)
Lemma read_file_not_index_error filename st st' :
  read_file int strip filename st ≠ (st', inl IndexError).
Proof.
  unfold read_file, mbind, Py_bind, open.
  destruct (files st !! filename) as [lines|]; [|done].
  generalize (Table [] [] []). generalize st.
  induction lines as [|line lines IH]; intros st2 t; simpl; [done|].
  unfold mbind, Py_bind.
  destruct (read_line int strip line t st2) as [st3 [e|t3]] eqn:Hline;
    [|apply IH].
  intros [= <- ->]. revert Hline. unfold read_line.
  destruct (split_comma (strip line)) as [|op [|size [|root [|? ?]]]];
    try done.
  unfold int_of, mbind, Py_bind, mret, Py_ret, raise, print, emit.
  destruct (int size) as [sz|]; [|done].
  destruct (int root) as [rt|]; [|done].
  by case_bool_decide.
Qed.

(** The worker up to the table: the four variables are set, whatever they
    were, the process group is set up, and the file is read. *)
Lemma worker_run given_rank group_rank st :
  worker int strip torch given_rank group_rank st
  = let st0 := State (files st) (worker_environ given_rank (environ st))
                 (next_id st) (trace st) in
    match init_raises torch st0 with
    | Some e => (st0, inl (TorchError e))
    | None =>
        match read_file int strip input_file st0 with
        | (st1, inl e) => (st1, inl e)
        | (st1, inr t) =>
            test_ccl torch (ops t) (sizes t) (roots t) "cpu" group_rank
              rounds st1
        end
    end.
Proof.
  unfold worker, setenv, torch_call, mbind, Py_bind. cbn [fst snd].
  fold (worker_environ given_rank (environ st)).
  by destruct (init_raises torch _).
Qed.

(** X19: whatever the file holds, the worker does not fail with
    [IndexError]: the lists [read_file] hands to [test_ccl] are equally
    long. *)
Theorem worker_never_index_error given_rank group_rank st :
  snd (worker int strip torch given_rank group_rank st) ≠ inl IndexError.
Proof.
  rewrite worker_run. cbv zeta. set (st0 := State _ _ _ _).
  destruct (init_raises torch st0) as [e|].
  { done. }
  destruct (read_file int strip input_file st0) as [st1 [e|t]] eqn:Hread.
  - simpl. intros [= ->]. by apply read_file_not_index_error in Hread.
  - apply read_file_ok in Hread as (-> & lines & _ & _ & Ho & Hs & Hr & _).
    destruct (test_ccl_outcome torch (ops t) (sizes t) (roots t) "cpu"
                group_rank rounds st0)
      as [(n & events & -> & _)|(st' & e & -> & _)]; [lia|lia|done|].
    done.
Qed.

(** X20: a worker that completes has set [MASTER_ADDR], [MASTER_PORT],
    [WORLD_SIZE] and [RANK] whatever they were before, has read the file
    [DeepSpeed.csv], and has made 100 calls into [torch.distributed] for
    each line of the file that names a known operation, each reduce or
    broadcast with a root below [world_size]. *)
Theorem worker_completes given_rank group_rank st st' :
  worker int strip torch given_rank group_rank st = (st', inr tt) →
  ∃ lines events,
    files st !! input_file = Some lines
    ∧ files st' = files st
    ∧ environ st' = worker_environ given_rank (environ st)
    ∧ trace st' = trace st ++ events
    ∧ length (calls events)
      = 100 * length (filter (λ op, known op = true) (line_op strip <$> lines))
    ∧ Forall root_below events.
Proof.
  rewrite worker_run. cbv zeta. set (st0 := State _ _ _ _).
  destruct (init_raises torch st0) as [e|]; [done|].
  destruct (read_file int strip input_file st0) as [st1 [e|t]] eqn:Hread;
    [done|].
  pose proof Hread as Hops.
  apply read_file_ok in Hread as (-> & lines & Hfile & _ & Ho & Hs & Hr & Hroots).
  revert Hops. unfold read_file, mbind, Py_bind, open. rewrite Hfile.
  intros Hops%read_lines_ops. simpl in Hops.
  destruct (test_ccl_outcome torch (ops t) (sizes t) (roots t) "cpu"
              group_rank rounds st0)
    as [(n & events & -> & Hcount & Hok)|(st'' & e & -> & _)];
    [lia|lia| |done].
  intros [= <-]. exists lines, events. split_and!; try done.
  + by rewrite Hcount, Hops.
  + eapply Forall_impl; [done|]. intros e. by apply call_ok_root_below.
Qed.

End Worker.

(** **** The script on small files *)

Local Transparent world_size.

Lemma read_file_table_witness :
  let st := State {[ "DeepSpeed.csv" := ["reduce,4,0"; " allgather,2,-1 "] ]}
              ∅ 0 [] in
  let t := Table ["reduce"; "allgather"] [4; 2]%Z [0; -1]%Z in
  st = st
  ∧ ∃ lines, files st !! "DeepSpeed.csv" = Some lines
     ∧ Forall (λ line, commas (strip_blanks line) = 2) lines
     ∧ length (ops t) = length lines
     ∧ length (sizes t) = length lines
     ∧ length (roots t) = length lines
     ∧ Forall (λ r, (r < world_size)%Z) (roots t).
Proof.
  apply (read_file_table decimal strip_blanks "DeepSpeed.csv"). reflexivity.
Defined.

Lemma read_file_invalid_root_witness :
  let st := State {[ "DeepSpeed.csv"
                     := ["reduce,4,0"; "broadcast,1,12"; "no more fields"] ]}
              ∅ 0 [] in
  read_file decimal strip_blanks "DeepSpeed.csv" st
  = (add_trace st [Print "Invalid root 12"], inl SystemExit).
Proof.
  apply (read_file_invalid_root decimal strip_blanks "DeepSpeed.csv" _
           ["reduce,4,0"] "broadcast,1,12" ["no more fields"]
           (Table ["reduce"] [4%Z] [0%Z]) "broadcast" "1" "12" 1 12);
    reflexivity || (unfold world_size; lia).
Defined.

Lemma read_file_field_count_witness :
  let st := State {[ "DeepSpeed.csv" := ["reduce,4,0"; ""] ]} ∅ 0 [] in
  read_file decimal strip_blanks "DeepSpeed.csv" st = (st, inl ValueError).
Proof.
  apply (read_file_field_count decimal strip_blanks "DeepSpeed.csv" _
           ["reduce,4,0"] "" [] (Table ["reduce"] [4%Z] [0%Z]));
    [reflexivity|reflexivity|by vm_compute].
Defined.

Lemma test_ccl_completes_witness :
  ∃ n events,
    test_ccl torch_ok ["reduce"; "scatter"; "allgather"] [4; 3; 2]%Z
      [0; 1; 2]%Z "cpu" 3 2 (State ∅ ∅ 0 [])
    = (add_trace (add_tensors (State ∅ ∅ 0 []) n) events, inr tt)
    ∧ length (calls events)
      = Z.to_nat 2
        * length (filter (λ op, known op = true)
                    ["reduce"; "scatter"; "allgather"])
    ∧ Forall (call_ok [0; 1; 2]%Z) events.
Proof.
  apply test_ccl_completes; [reflexivity|reflexivity| |].
  - intros i size _ _. split; reflexivity.
  - intros st e. reflexivity.
Defined.

Lemma test_ccl_index_error_witness :
  ∃ n,
    test_ccl torch_strict ["reduce"] [4; 3]%Z [0]%Z "cpu" 3 2 (State ∅ ∅ 0 [])
    = (add_trace (add_tensors (State ∅ ∅ 0 []) n)
         [Print ("Rank " ++ pretty 3%Z
                 ++ ": starting to initialize tensors ...")%string],
       inl IndexError).
Proof.
  apply test_ccl_index_error; [simpl; lia|].
  intros [|[|i]] size Hi Hsize; [..|simpl in Hi; lia];
    injection Hsize as <-; split; reflexivity.
Defined.


Lemma worker_completes_witness :
  let st := State {[ "DeepSpeed.csv" := ["reduce,4,0"; "allgather,2,1"] ]}
              {[ "RANK" := "0" ]} 0 [] in
  let st' := fst (worker decimal strip_blanks torch_ok 3 3 st) in
  ∃ lines events,
    files st !! input_file = Some lines
    ∧ files st' = files st
    ∧ environ st' = worker_environ 3 (environ st)
    ∧ trace st' = trace st ++ events
    ∧ length (calls events)
      = 100 * length (filter (λ op, known op = true)
                        (line_op strip_blanks <$> lines))
    ∧ Forall root_below events.
Proof.
  apply (worker_completes decimal strip_blanks torch_ok 3 3). by vm_compute.
Defined.

(** With a torch that refuses a root below zero, the first reduce to such a
    root is made and raises: the script ends with the error of torch after
    one call. *)
Example test_ccl_negative_root :
  let run := test_ccl torch_strict ["allreduce"; "reduce"] [4; 2]%Z
               [0; -3]%Z "cpu" 3 2 (State ∅ ∅ 0 []) in
  snd run = inl (TorchError "ValueError")
  ∧ calls (trace (fst run))
    = [AllReduce (Tensor 0 4); Reduce (Tensor 1 2) (-3)].
Proof. by vm_compute. Qed.

(** With a torch that refuses the device, no tensor of the table is kept
    and no call is made. *)
Example test_ccl_device_refused :
  let torch := Torch (λ _ _, None) (λ _ _ _, Some "RuntimeError")
                 (λ _, None) (λ _ _, None) in
  let run := test_ccl torch ["reduce"] [4]%Z [0]%Z "xpu" 3 2
               (State ∅ ∅ 0 []) in
  snd run = inl (TorchError "RuntimeError") ∧ calls (trace (fst run)) = [].
Proof. by vm_compute. Qed.

(** A root below zero passes the check of [read_file], which bounds the
    root from above only. *)
Example read_file_negative_root :
  snd (read_file decimal strip_blanks "DeepSpeed.csv"
         (State {[ "DeepSpeed.csv" := ["reduce,4,-3"] ]} ∅ 0 []))
  = inr (Table ["reduce"] [4%Z] [(-3)%Z]).
Proof. reflexivity. Qed.

End ScriptSpec.
